(** * Recursion-safe dynamic function generation

    A shallow embedding of [dataclass_wizard/v1/decorators.py]: the decorator
    [setup_recursive_safe_function], its inner [_wrapper_logic], and the
    objects they share by reference (the recursion guard, the extras
    mappings, the [FunctionBuilder]s), followed by the properties of the
    wrapper: naming, caching, cycle safety, framing and error behaviour. *)

From Stdlib Require Import Ascii.
From stdpp Require Import gmap strings list fin_maps pretty.

Set Warnings "-clear-no-such-hyp".

Open Scope string_scope.
Open Scope list_scope.
Open Scope nat_scope.

(** ** Python strings *)

Module PyStr.

(** [s.partition(c)] restricted to what [split] needs: the text before
    and after the first occurrence of [c], when there is one. *)
Fixpoint break_at (c : Ascii.ascii) (s : string) : option (string * string) :=
  match s with
  | EmptyString => None
  | String a rest =>
      if Ascii.eqb a c then Some (EmptyString, rest)
      else match break_at c rest with
           | Some (p, q) => Some (String a p, q)
           | None => None
           end
  end.

(** [s.split(c, maxsplit)] for a one-character separator. *)
Fixpoint split (c : Ascii.ascii) (maxsplit : nat) (s : string) : list string :=
  match maxsplit with
  | O => [s]
  | S m =>
      match break_at c s with
      | None => [s]
      | Some (p, q) => p :: split c m q
      end
  end.

(** A format string as [str.format] parses it: literal text and
    replacement fields, a field being the text between its braces. *)
Inductive Seg := Lit (text : string) | Field (field : string).

Definition FormatString := list Seg.

Definition seg_empty (x : Seg) : bool :=
  match x with
  | Lit EmptyString => true
  | _ => false
  end.

(** Truth value of the string: false exactly for the empty string. *)
Definition truthy (fmt : FormatString) : bool := negb (forallb seg_empty fmt).

(** The decimal digits [0] to [9]. *)
Definition is_digit (a : Ascii.ascii) : bool :=
  (48 <=? Ascii.nat_of_ascii a) && (Ascii.nat_of_ascii a <=? 57).

Fixpoint all_digits (s : string) : bool :=
  match s with
  | EmptyString => true
  | String a rest => is_digit a && all_digits rest
  end.

(** The number a string of digits denotes, read from the left. *)
Fixpoint decimal (acc : N) (s : string) : N :=
  match s with
  | EmptyString => acc
  | String a rest => decimal (acc * 10 + (Ascii.N_of_ascii a - 48)) rest
  end.

(** The largest index [str.format] reads from a field: [sys.maxsize] of a
    64-bit build. *)
Definition PY_SSIZE_T_MAX : N := 9223372036854775807.

(** A character of a replacement field that is an argument name and
    nothing more: ASCII, and none of [.] and [[] (attribute and item
    lookup), [!] (conversion), [:] (format specification) and the
    braces. *)
Definition plain_char (a : Ascii.ascii) : bool :=
  (Ascii.nat_of_ascii a <? 128)
  && negb (existsb (Ascii.eqb a)
             ["."; "["; "!"; ":"; "{"; "}"]%char).

Fixpoint plain (field : string) : bool :=
  match field with
  | EmptyString => true
  | String a rest => plain_char a && plain rest
  end.

End PyStr.

(** ** Values handed to the wrapper *)

(** Identity of a class or generic alias. *)
Definition TypeId := positive.

(** The object used as key of the recursion guard: [tp.origin] (a class)
    or [tp.args] (a tuple of classes). *)
Inductive Key :=
| KOrigin (o : TypeId)
| KArgs (a : list TypeId).

Global Instance Key_eq_dec : EqDecision Key.
Proof. solve_decision. Defined.

Global Instance Key_countable : Countable Key.
Proof.
  refine (inj_countable'
            (λ k, match k with KOrigin o => inl o | KArgs a => inr a end)
            (λ x, match x with inl o => KOrigin o | inr a => KArgs a end) _).
  by intros [].
Defined.

(** Modelled from the spec: the class [TypeInfo] of [.models], which the
    wrapper only reads: origin, type arguments, display name, positional
    index and the expression [tp.v()] of the value being converted. *)
Record TypeInfo := {
  origin : TypeId;
  args : list TypeId;
  name : string;
  field_i : nat;
  v : string;
}.

(** The class context [_cls]: an object with an identity and a truth value
    ([None] is the absent context). *)
Record ClsCtx := { ctx_id : positive; ctx_truthy : bool }.

Definition is_truthy (c : option ClsCtx) : bool :=
  match c with
  | Some o => ctx_truthy o
  | None => false
  end.

Inductive Exn :=
| AttributeError (attr : string)
| KeyError (key : string)
| IndexError
| ValueError
| NameError
| TypeError
| BuilderStateError
| DuplicateProcedureError (proc : string)
| AmbiguousClassContextError
| CompilationError
| Failure (msg : string).

Global Instance Exn_eq_dec : EqDecision Exn.
Proof. solve_decision. Defined.

(** Heap addresses; each kind of object has its own address space. *)
Definition loc := nat.

(** Modelled from the spec: the [Extras] mapping of [.models] (the Build
    Context), with the four entries the wrapper reads or replaces. The
    guard, the builder and the locals are references. *)
Record Extras := {
  recursion_guard : loc;
  cls_name : string;
  fn_gen : loc;
  locals : loc;
}.

(** ** The decorated function

    What a per-field compiler does when called, as far as the wrapper can
    tell: it emits statements into the builder of the extras it was given,
    opens procedure scopes of its own there, calls decorated functions
    (possibly itself) with those extras, or raises. *)
Inductive Body :=
| Return
| Emit (stmt : string) (k : Body)
| Call (callee : nat) (_cls : option ClsCtx) (tp : TypeInfo) (k : string → Body)
| WithFunction (proc : string) (params : list string) (inner : Body) (k : Body)
| Throw (e : Exn).

(** A callable: [__name__], [__code__.co_argcount] ([None] for a callable
    without a code object), and its behaviour. The first argument of
    [func_body] is the class context when the function is called as
    [func(_cls, tp, extras)], and [None] when called as
    [func(tp, extras)]. *)
Record PyCallable := {
  func_name : string;
  co_argcount : option nat;
  func_body : option ClsCtx → TypeInfo → Body;
}.

(** The arguments fixed at decoration time. *)
Record Decoration := {
  func : PyCallable;
  fn_name : option PyStr.FormatString;
  is_generic : bool;
}.

(** The closure [setup_recursive_safe_function] returns. *)
Inductive Wrapper :=
| wrapper_class_method (d : Decoration)  (* takes (_cls, tp, extras) *)
| wrapper_logic (d : Decoration).        (* takes (tp, extras, _cls=None) *)

Definition decoration (w : Wrapper) : Decoration :=
  match w with
  | wrapper_class_method d => d
  | wrapper_logic d => d
  end.

(** ** Naming *)

(** [func.__name__.split('_', 2)[-1]] *)
Definition tp_name_of (f : PyCallable) : string :=
  List.last (PyStr.split "_"%char 2 (func_name f)) EmptyString.

(** The two f-strings of the default template. *)
Definition default_fn_name (generic : bool) (cls_name tp_name : string)
    (tp : TypeInfo) : string :=
  if generic
  then "_load_" +:+ cls_name +:+ "_" +:+ tp_name +:+ "_" +:+ pretty (field_i tp)
  else "_load_" +:+ cls_name +:+ "_" +:+ tp_name +:+ "_" +:+ name tp.

(** What [fmt.format(cls_name=value)] puts in place of the replacement
    field [{field}]. A field that is empty or all digits is positional,
    and there is no positional argument: [IndexError], or [ValueError]
    when the digits exceed the largest index. Any other field is a
    keyword: the value for [cls_name], [KeyError] otherwise. Fields with
    a conversion, a format specification or a lookup are outside the
    model, which reports them as an error of its own. *)
Definition get_field (field value : string) : Exn + string :=
  if negb (PyStr.plain field)
  then inl (Failure "replacement field outside the model")
  else if PyStr.all_digits field
  then if (PyStr.decimal 0 field <=? PyStr.PY_SSIZE_T_MAX)%N
       then inl IndexError
       else inl ValueError
  else if String.eqb field "cls_name" then inr value
  else inl (KeyError field).

(** [fmt.format(cls_name=value)]: the fields are replaced from left to
    right, the first that fails raises. *)
Fixpoint format (fmt : PyStr.FormatString) (value : string) : Exn + string :=
  match fmt with
  | [] => inr EmptyString
  | PyStr.Lit text :: rest =>
      match format rest value with
      | inr s => inr (text +:+ s)
      | inl e => inl e
      end
  | PyStr.Field field :: rest =>
      match get_field field value with
      | inr x =>
          match format rest value with
          | inr s => inr (x +:+ s)
          | inl e => inl e
          end
      | inl e => inl e
      end
  end.

(** [if fn_name:] *)
Definition fn_name_given (d : Decoration) : option PyStr.FormatString :=
  match fn_name d with
  | Some fmt => if PyStr.truthy fmt then Some fmt else None
  | None => None
  end.

Definition reserved_name (d : Decoration) (cls_name : string) (tp : TypeInfo)
    : Exn + string :=
  match fn_name_given d with
  | Some fmt => format fmt (name tp)
  | None => inr (default_fn_name (is_generic d) cls_name (tp_name_of (func d)) tp)
  end.

(** [cls = tp.args if is_generic else tp.origin] *)
Definition cache_key (d : Decoration) (tp : TypeInfo) : Key :=
  if is_generic d then KArgs (args tp) else KOrigin (origin tp).

(** ** Decoration *)

Inductive SetupResult :=
| Decorator (apply : PyCallable → Exn + Wrapper)
| Decorated (w : Wrapper)
| SetupRaises (e : Exn).

(** The part of [setup_recursive_safe_function] after [func is None]:
    [is_class_method = func.__code__.co_argcount == 3] selects the closure
    that is returned. *)
Definition decorate (f : PyCallable) (fmt : option PyStr.FormatString)
    (generic : bool) : Exn + Wrapper :=
  let d := {| func := f; fn_name := fmt; is_generic := generic |} in
  match co_argcount f with
  | None => inl (AttributeError "__code__")
  | Some argc =>
      let is_class_method := Nat.eqb argc 3 in
      if is_class_method then inr (wrapper_class_method d)
      else inr (wrapper_logic d)
  end.

Definition setup_recursive_safe_function (f : option PyCallable)
    (fmt : option PyStr.FormatString) (generic : bool) : SetupResult :=
  match f with
  | None => Decorator (λ g, decorate g fmt generic)
  | Some g =>
      match decorate g fmt generic with
      | inr w => Decorated w
      | inl e => SetupRaises e
      end
  end.

Definition setup_recursive_safe_function_for_generic (f : PyCallable)
    : SetupResult :=
  setup_recursive_safe_function (Some f) None true.

(** ** The procedure builder

    Modelled from the spec: the class [FunctionBuilder] of
    [..utils.function_builder] (the Procedure Builder): sealed, named
    definitions in insertion order, and the procedure scopes that are
    open. Sealing records the definition under its name; [merge] refuses
    a name that the receiving builder already holds. *)

Inductive Sentinel := MISSING.

Record Procedure := {
  proc_params : list string;
  proc_default : Sentinel;
  proc_body : list string;
  proc_locals : loc;
}.

Record FunctionBuilder := {
  functions : list (string * Procedure);
  open_scopes : list (string * Procedure);
}.

Module FB.

(** [FunctionBuilder()] *)
Definition empty : FunctionBuilder :=
  {| functions := []; open_scopes := [] |}.

Definition defined (fb : FunctionBuilder) : list string := (functions fb).*1.

(** Entering [with fb.function(name, params, default, locals)] *)
Definition begin_procedure (proc : string) (params : list string)
    (default : Sentinel) (free : loc) (fb : FunctionBuilder) : FunctionBuilder :=
  {| functions := functions fb;
     open_scopes :=
       (proc, {| proc_params := params; proc_default := default;
                 proc_body := []; proc_locals := free |}) :: open_scopes fb |}.

Definition emit (stmt : string) (fb : FunctionBuilder) : option FunctionBuilder :=
  match open_scopes fb with
  | [] => None
  | (proc, p) :: outer =>
      Some {| functions := functions fb;
              open_scopes :=
                (proc, {| proc_params := proc_params p;
                          proc_default := proc_default p;
                          proc_body := proc_body p ++ [stmt];
                          proc_locals := proc_locals p |}) :: outer |}
  end.

(** The mapping update [functions[proc] = p]: in place when [proc] is
    already a key, at the end otherwise. *)
Fixpoint record (proc : string) (p : Procedure)
    (fs : list (string * Procedure)) : list (string * Procedure) :=
  match fs with
  | [] => [(proc, p)]
  | (q, old) :: rest =>
      if String.eqb q proc then (q, p) :: rest
      else (q, old) :: record proc p rest
  end.

(** Leaving the [with] block: the innermost open definition is sealed. *)
Definition seal (fb : FunctionBuilder) : FunctionBuilder :=
  match open_scopes fb with
  | [] => fb
  | (proc, p) :: outer =>
      {| functions := record proc p (functions fb); open_scopes := outer |}
  end.

(** The first name of [other] that [self] already defines. *)
Definition collision (self other : FunctionBuilder) : option string :=
  List.find (λ proc, bool_decide (proc ∈ defined self)) (defined other).

(** [self |= other] *)
Definition merge (self other : FunctionBuilder) : Exn + FunctionBuilder :=
  match collision self other with
  | Some proc => inl (DuplicateProcedureError proc)
  | None =>
      inr {| functions := functions self ++ functions other;
             open_scopes := open_scopes self |}
  end.

End FB.

(** ** The store

    The objects of one or more compilations, by kind. A recursion guard is
    a Python dict from cache key to reserved name. [trace] is ghost state:
    one entry per call of a decorated function by the wrapper, nothing
    reads it. *)

Record Invocation := {
  inv_guard : loc;
  inv_key : Key;
  inv_func : string;
  inv_cls : option ClsCtx;
  inv_extras : loc;
}.

Record Store := {
  guards : list (gmap Key string);
  builders : list FunctionBuilder;
  dicts : list Extras;
  scopes : list (gmap string Key);
  trace : list Invocation;
}.

Inductive Res (A : Type) :=
| Ok (a : A) (s : Store)
| Raise (e : Exn) (s : Store)
| OutOfFuel.

Arguments Ok {A} a s.
Arguments Raise {A} e s.
Arguments OutOfFuel {A}.

Definition M (A : Type) : Type := Store → Res A.

Definition ret {A} (a : A) : M A := λ s, Ok a s.

Definition raise {A} (e : Exn) : M A := λ s, Raise e s.

Definition bind {A B} (m : M A) (f : A → M B) : M B :=
  λ s, match m s with
       | Ok a s' => f a s'
       | Raise e s' => Raise e s'
       | OutOfFuel => OutOfFuel
       end.

Notation "x <- m ;; f" := (bind m (λ x, f))
  (at level 100, m at next level, f at level 200, right associativity).
Notation "m >> f" := (bind m (λ _, f))
  (at level 100, f at level 200, right associativity).

(** [try: m finally: h] where [h] cannot fail. *)
Definition finally {A} (m : M A) (h : Store → Store) : M A :=
  λ s, match m s with
       | Ok a s' => Ok a (h s')
       | Raise e s' => Raise e (h s')
       | OutOfFuel => OutOfFuel
       end.

Definition lift {A} (r : Exn + A) : M A :=
  match r with
  | inr a => ret a
  | inl e => raise e
  end.

(** A reference that points nowhere cannot arise in Python; the model
    reports it as an error of its own. *)
Definition deref {A} (o : option A) : M A :=
  match o with
  | Some a => ret a
  | None => raise (Failure "dangling reference")
  end.

Module Heap.

Definition set_guards g (s : Store) : Store :=
  {| guards := g; builders := builders s; dicts := dicts s;
     scopes := scopes s; trace := trace s |}.
Definition set_builders b (s : Store) : Store :=
  {| guards := guards s; builders := b; dicts := dicts s;
     scopes := scopes s; trace := trace s |}.
Definition set_dicts d (s : Store) : Store :=
  {| guards := guards s; builders := builders s; dicts := d;
     scopes := scopes s; trace := trace s |}.
Definition set_scopes l (s : Store) : Store :=
  {| guards := guards s; builders := builders s; dicts := dicts s;
     scopes := l; trace := trace s |}.
Definition set_trace t (s : Store) : Store :=
  {| guards := guards s; builders := builders s; dicts := dicts s;
     scopes := scopes s; trace := t |}.

Definition update_builder (b : loc) (f : FunctionBuilder → FunctionBuilder)
    (s : Store) : Store :=
  set_builders (alter f b (builders s)) s.

(** [extras[...]] *)
Definition get_extras (e : loc) : M Extras := λ s, deref (dicts s !! e) s.

(** [recursion_guard.get(cls)] *)
Definition guard_get (g : loc) (cls : Key) : M (option string) :=
  λ s, (G <- deref (guards s !! g) ;; ret (G !! cls)) s.

(** [recursion_guard[cls] = _fn_name] *)
Definition guard_set (g : loc) (cls : Key) (fn : string) : M unit :=
  λ s, (G <- deref (guards s !! g) ;;
        λ s, Ok tt (set_guards (<[g := <[cls := fn]> G]> (guards s)) s)) s.

(** [extras.copy()] *)
Definition copy_extras (e : loc) : M loc :=
  λ s, (ex <- deref (dicts s !! e) ;;
        λ s, Ok (length (dicts s)) (set_dicts (dicts s ++ [ex]) s)) s.

(** [{'cls': cls}] *)
Definition new_locals (cls : Key) : M loc :=
  λ s, Ok (length (scopes s)) (set_scopes (scopes s ++ [{["cls" := cls]}]) s).

(** [FunctionBuilder()] *)
Definition new_builder : M loc :=
  λ s, Ok (length (builders s)) (set_builders (builders s ++ [FB.empty]) s).

(** [updated_extras['locals'] = l] *)
Definition store_locals (e : loc) (l : loc) : M unit :=
  λ s, (ex <- deref (dicts s !! e) ;;
        λ s, Ok tt (set_dicts
                      (<[e := {| recursion_guard := recursion_guard ex;
                                 cls_name := cls_name ex;
                                 fn_gen := fn_gen ex;
                                 locals := l |}]> (dicts s)) s)) s.

(** [updated_extras['fn_gen'] = b] *)
Definition store_fn_gen (e : loc) (b : loc) : M unit :=
  λ s, (ex <- deref (dicts s !! e) ;;
        λ s, Ok tt (set_dicts
                      (<[e := {| recursion_guard := recursion_guard ex;
                                 cls_name := cls_name ex;
                                 fn_gen := b;
                                 locals := locals ex |}]> (dicts s)) s)) s.

Definition log (i : Invocation) : M unit :=
  λ s, Ok tt (set_trace (trace s ++ [i]) s).

Definition emit (b : loc) (stmt : string) : M unit :=
  λ s, (fb <- deref (builders s !! b) ;;
        match FB.emit stmt fb with
        | Some fb' => λ s, Ok tt (set_builders (<[b := fb']> (builders s)) s)
        | None => raise BuilderStateError
        end) s.

(** [with fb.function(proc, params, default, free): m] *)
Definition with_function {A} (b : loc) (proc : string) (params : list string)
    (default : Sentinel) (free : loc) (m : M A) : M A :=
  λ s, (_ <- deref (builders s !! b) ;;
        finally
          (λ s, m (update_builder b (FB.begin_procedure proc params default free) s))
          (update_builder b FB.seal)) s.

(** [main |= other] *)
Definition merge (main other : loc) : M unit :=
  λ s, (self <- deref (builders s !! main) ;;
        o <- deref (builders s !! other) ;;
        merged <- lift (FB.merge self o) ;;
        λ s, Ok tt (set_builders (<[main := merged]> (builders s)) s)) s.

End Heap.

(** ** The wrapper *)

Definition Invoke : Type := nat → option ClsCtx → TypeInfo → loc → M string.

(** Running the statements of a decorated function that was handed the
    extras [e]; [invoke] is a call of a decorated function by its name. *)
Fixpoint run_body (invoke : Invoke) (e : loc) (b : Body) : M unit :=
  match b with
  | Return => ret tt
  | Emit stmt k =>
      ex <- Heap.get_extras e ;;
      Heap.emit (fn_gen ex) stmt >>
      run_body invoke e k
  | Call callee c tp k =>
      r <- invoke callee c tp e ;;
      run_body invoke e (k r)
  | WithFunction proc params inner k =>
      ex <- Heap.get_extras e ;;
      Heap.with_function (fn_gen ex) proc params MISSING (locals ex)
        (run_body invoke e inner) >>
      run_body invoke e k
  | Throw x => raise x
  end.

Section Wrapper.

(** How a call [func(...)] of the decorated function runs. *)
Variable call : PyCallable → option ClsCtx → TypeInfo → loc → M unit.

Definition _wrapper_logic (d : Decoration) (tp : TypeInfo) (extras : loc)
    (_cls : option ClsCtx) : M string :=
  let cls := cache_key d tp in
  ex <- Heap.get_extras extras ;;
  let recursion_guard := recursion_guard ex in
  hit <- Heap.guard_get recursion_guard cls ;;
  match hit with
  | Some _fn_name => ret (_fn_name +:+ "(" +:+ v tp +:+ ")")
  | None =>
      let cls_name := cls_name ex in
      _fn_name <- lift (reserved_name d cls_name tp) ;;
      Heap.guard_set recursion_guard cls _fn_name >>
      let main_fn_gen := fn_gen ex in
      updated_extras <- Heap.copy_extras extras ;;
      _locals <- Heap.new_locals cls ;;
      Heap.store_locals updated_extras _locals >>
      new_fn_gen <- Heap.new_builder ;;
      Heap.store_fn_gen updated_extras new_fn_gen >>
      (* func(_cls, tp, updated_extras) if _cls else func(tp, updated_extras) *)
      let passed := if is_truthy _cls then _cls else None in
      let apply :=
        (* ghost: the call is put on record *)
        Heap.log {| inv_guard := recursion_guard; inv_key := cls;
                    inv_func := func_name (func d); inv_cls := passed;
                    inv_extras := updated_extras |} >>
        call (func d) passed tp updated_extras in
      match fn_name_given d with
      | Some _ => apply
      | None =>
          Heap.with_function new_fn_gen _fn_name ["v1"] MISSING _locals apply
      end >>
      Heap.merge main_fn_gen new_fn_gen >>
      ret (_fn_name +:+ "(" +:+ v tp +:+ ")")
  end.

(** Calling the closure returned by the decorator. For
    [wrapper_class_method] the context is its first, required argument;
    for [_wrapper_logic] its optional third one. *)
Definition call_wrapper (w : Wrapper) (_cls : option ClsCtx) (tp : TypeInfo)
    (extras : loc) : M string :=
  match w with
  | wrapper_class_method d => _wrapper_logic d tp extras _cls
  | wrapper_logic d => _wrapper_logic d tp extras _cls
  end.

End Wrapper.

Section Program.

(** The decorated functions of the program, by the name (here a number)
    under which function bodies call them. *)
Variable registry : list Wrapper.

(** A call of a decorated function, [n] bounding the depth of the calls
    of decorated functions nested in one another below it. *)
Fixpoint call_func (n : nat) (f : PyCallable) (c : option ClsCtx)
    (tp : TypeInfo) (e : loc) : M unit :=
  match n with
  | O => λ _, OutOfFuel
  | S m =>
      run_body
        (λ callee c' tp' e',
           match registry !! callee with
           | Some w => call_wrapper (call_func m) w c' tp' e'
           | None => raise NameError
           end)
        e (func_body f c tp)
  end.

(** A top-level request to the wrapper [w]. *)
Definition compile (n : nat) (w : Wrapper) (c : option ClsCtx)
    (tp : TypeInfo) (e : loc) : M string :=
  call_wrapper (call_func n) w c tp e.

End Program.

(** ** Vocabulary of the specification *)

(** The callable [f] with another declared parameter count [a], or with
    none: the same name and the same behaviour when called, as for a
    function that takes its arguments through defaults or [*args]. *)
Definition with_argcount (a : option nat) (f : PyCallable) : PyCallable :=
  {| func_name := func_name f; co_argcount := a; func_body := func_body f |}.

(** A closure of the same shape whose decorated function reports the
    parameter count [r] gives it. *)
Definition recounted (r : PyCallable → option nat) (d : Decoration)
    : Decoration :=
  {| func := with_argcount (r (func d)) (func d);
     fn_name := fn_name d;
     is_generic := is_generic d |}.

Definition recounted_wrapper (r : PyCallable → option nat) (w : Wrapper)
    : Wrapper :=
  match w with
  | wrapper_class_method d => wrapper_class_method (recounted r d)
  | wrapper_logic d => wrapper_logic (recounted r d)
  end.

(** The store a result carries, if any. *)
Definition outcome {A} (r : Res A) : option Store :=
  match r with
  | Ok _ s => Some s
  | Raise _ s => Some s
  | OutOfFuel => None
  end.

(** The recursion guard behind the reference [g]. *)
Definition guard_at (g : loc) (s : Store) : gmap Key string :=
  default ∅ (guards s !! g).

(** The keys for which a decorated function was called. *)
Definition invoked (t : list Invocation) : list Key := inv_key <$> t.

(** The argument the decorated function receives in place of [_cls]. *)
Definition passed (c : option ClsCtx) : option ClsCtx :=
  if is_truthy c then c else None.

(** The store in which the decorated function starts to run on a cache
    miss at [s]: the name is reserved, the copy of the extras and the
    fresh locals and builder are allocated, the call is on record. *)
Definition entry_store (d : Decoration) (tp : TypeInfo) (ex : Extras)
    (nm : string) (c : option ClsCtx) (s : Store) : Store :=
  let g := recursion_guard ex in
  let fresh :=
    match fn_name_given d with
    | Some _ => FB.empty
    | None =>
        FB.begin_procedure nm ["v1"] MISSING (length (scopes s)) FB.empty
    end in
  {| guards := <[g := <[cache_key d tp := nm]> (guard_at g s)]> (guards s);
     builders := builders s ++ [fresh];
     dicts := dicts s ++ [{| recursion_guard := g; cls_name := cls_name ex;
                             fn_gen := length (builders s);
                             locals := length (scopes s) |}];
     scopes := scopes s ++ [{["cls" := cache_key d tp]}];
     trace := trace s ++ [{| inv_guard := g; inv_key := cache_key d tp;
                             inv_func := func_name (func d);
                             inv_cls := passed c;
                             inv_extras := length (dicts s) |}] |}.

(** Leaving the scope the wrapper opened, if it opened one. *)
Definition close_scope (d : Decoration) (nb : loc) (s : Store) : Store :=
  match fn_name_given d with
  | Some _ => s
  | None => Heap.update_builder nb FB.seal s
  end.

(** What the wrapper does with the result of the decorated function. *)
Definition after_body (d : Decoration) (tp : TypeInfo) (main nb : loc)
    (nm : string) (r : Res unit) : Res string :=
  match r with
  | Ok _ s1 =>
      (Heap.merge main nb >> ret (nm +:+ "(" +:+ v tp +:+ ")"))
        (close_scope d nb s1)
  | Raise x s1 => Raise x (close_scope d nb s1)
  | OutOfFuel => OutOfFuel
  end.

(** [evolves g b s s']: [s'] is [s] after some requests that use the guard
    [g] and the builder [b]. Objects are only added; of the objects of [s]
    only the guard [g] and the builder [b] can differ; the guard has grown
    by exactly one entry for each call of a decorated function, each for a
    key it did not hold, no key twice. *)
Record evolves (g b : loc) (s s' : Store) : Prop := {
  ev_dicts : dicts s `prefix_of` dicts s';
  ev_scopes : scopes s `prefix_of` scopes s';
  ev_guards_len : length (guards s') = length (guards s);
  ev_guards_other : ∀ g', g' ≠ g → guards s' !! g' = guards s !! g';
  ev_guard : guard_at g s ⊆ guard_at g s';
  ev_builders_len : (length (builders s) ≤ length (builders s'))%nat;
  ev_builders_other :
    ∀ b', (b' < length (builders s))%nat → b' ≠ b →
          builders s' !! b' = builders s !! b';
  ev_calls :
    ∃ new, trace s' = (trace s ++ new)%list
           ∧ NoDup (invoked new)
           ∧ Forall (λ i, inv_guard i = g) new
           ∧ (∀ k, k ∈ invoked new → guard_at g s !! k = None)
           ∧ dom (guard_at g s') = dom (guard_at g s) ∪ list_to_set (invoked new);
}.

Definition res_evolves {A} (g b : loc) (s : Store) (r : Res A) : Prop :=
  ∀ s', outcome r = Some s' → evolves g b s s'.

(** The type-dependency graph stays within the keys [U]: every request a
    function body makes to a decorated function of [registry] is for a
    key of [U]. *)
Inductive within (registry : list Wrapper) (U : gset Key) : Body → Prop :=
| within_Return : within registry U Return
| within_Emit stmt k : within registry U k → within registry U (Emit stmt k)
| within_Call callee c tp k :
    (∀ w, registry !! callee = Some w → cache_key (decoration w) tp ∈ U) →
    (∀ r, within registry U (k r)) →
    within registry U (Call callee c tp k)
| within_WithFunction proc params inner k :
    within registry U inner → within registry U k →
    within registry U (WithFunction proc params inner k)
| within_Throw x : within registry U (Throw x).

Definition graph_within (registry : list Wrapper) (U : gset Key) : Prop :=
  ∀ w c tp, w ∈ registry → cache_key (decoration w) tp ∈ U →
            within registry U (func_body (func (decoration w)) c tp).

(** Since the trace was [t0], decorated functions were called for keys of
    [U] only. *)
Definition traced_within (U : gset Key) (t0 : list Invocation) (s : Store)
    : Prop :=
  ∃ new, trace s = t0 ++ new ∧ Forall (λ i, inv_key i ∈ U) new.

(** ** A small program

    The loader of a self-referential record
    [Node { value: int, next: Optional[Node] }], and the other callables
    the examples below are run on. *)

Module Demo.

Definition tp_node (expr : string) : TypeInfo :=
  {| origin := 1%positive; args := []; name := "Node"; field_i := 0;
     v := expr |}.

(** [def load_to_dataclass(tp, extras)]: assigns [value], asks for the
    loader of [next] (a [Node] again) and assigns what it returns. *)
Definition load_to_dataclass : PyCallable :=
  {| func_name := "load_to_dataclass";
     co_argcount := Some 2;
     func_body := λ _ _,
       Emit "value = v1['value']"
         (Call 0 None (tp_node "v1['next']")
            (λ r, Emit ("next = " +:+ r) Return)) |}.

Definition d_load : Decoration :=
  {| func := load_to_dataclass; fn_name := None; is_generic := false |}.

Definition node_registry : list Wrapper := [wrapper_logic d_load].

Definition root_extras : Extras :=
  {| recursion_guard := 0; cls_name := "Node"; fn_gen := 0; locals := 0 |}.

(** The store at the start of a top-level compilation. *)
Definition root : Store :=
  {| guards := [∅]; builders := [FB.empty]; dicts := [root_extras];
     scopes := [∅]; trace := [] |}.

Definition store_of {A} (r : Res A) : Store := default root (outcome r).

Definition node_compiled : Store :=
  store_of (compile node_registry 1 (wrapper_logic d_load) None
              (tp_node "v1") 0 root).

(** A dumper for the same field. *)
Definition dump_to_dataclass : PyCallable :=
  {| func_name := "dump_to_dataclass";
     co_argcount := Some 2;
     func_body := λ _ _, Emit "return v1" Return |}.

Definition d_dump : Decoration :=
  {| func := dump_to_dataclass; fn_name := None; is_generic := false |}.

(** A callable object without [__code__], such as a
    [functools.partial]. *)
Definition partial_loader : PyCallable :=
  {| func_name := "partial"; co_argcount := None;
     func_body := λ _ _, Return |}.

(** A per-field compiler that gives up on its type. *)
Definition load_to_unsupported : PyCallable :=
  {| func_name := "load_to_unsupported";
     co_argcount := Some 2;
     func_body := λ _ _,
       Emit "value = v1" (Throw (Failure "unsupported type")) |}.

Definition d_unsupported : Decoration :=
  {| func := load_to_unsupported; fn_name := None; is_generic := false |}.

(** [def load_to_model(cls, tp, extras)]: three declared parameters;
    called with two arguments it raises [TypeError]. *)
Definition load_to_model : PyCallable :=
  {| func_name := "load_to_model";
     co_argcount := Some 3;
     func_body := λ c _,
       match c with
       | Some _ => Emit "return v1" Return
       | None => Throw TypeError
       end |}.

Definition d_model : Decoration :=
  {| func := load_to_model; fn_name := None; is_generic := false |}.

(** A class context whose truth value is false, such as an instance of
    a class with [__len__] that is empty. *)
Definition empty_ctx : ClsCtx := {| ctx_id := 1; ctx_truthy := false |}.

Definition some_ctx : ClsCtx := {| ctx_id := 2; ctx_truthy := true |}.

Definition model_with (c : ClsCtx) : Res string :=
  compile [wrapper_class_method d_model] 1 (wrapper_class_method d_model)
    (Some c) (tp_node "v1") 0 root.

(** A class whose [__name__] is the numeral [2], at index 2. *)
Definition tp_two : TypeInfo :=
  {| origin := 7%positive; args := [7%positive]; name := "2"; field_i := 2;
     v := "v1" |}.

Definition d_generic : Decoration :=
  {| func := load_to_dataclass; fn_name := None; is_generic := true |}.

End Demo.

(** ** Further programs

    Function bodies and decorations the properties beyond the claims are
    stated on. *)

(** A function body that emits the statements [stmts], then goes on as
    [k]. *)
Fixpoint emits (stmts : list string) (k : Body) : Body :=
  match stmts with
  | [] => k
  | stmt :: rest => Emit stmt (emits rest k)
  end.

(** The procedure a scope opened with [params] and [free] holds once
    [stmts] were emitted into it. *)
Definition procedure_of (params stmts : list string) (free : loc) : Procedure :=
  {| proc_params := params; proc_default := MISSING; proc_body := stmts;
     proc_locals := free |}.

(** What a builder gains from a nested compilation in two levels: the
    procedure of the inner level, merged into the builder of the outer
    level while the scope of the latter was open, and then the procedure
    of the outer level, sealed under its name; when both levels were
    given the same name, the procedure of the outer level alone, recorded
    in place of the other. *)
Definition gained_procedures (inner : string) (p_inner : Procedure)
    (outer : string) (p_outer : Procedure) : list (string * Procedure) :=
  if String.eqb inner outer then [(inner, p_outer)]
  else [(inner, p_inner); (outer, p_outer)].

(** The text has no underscore. *)
Definition no_underscore (text : string) : Prop :=
  PyStr.break_at "_" text = None.

(** Every replacement field of the format string is [{cls_name}]. *)
Definition only_cls_name (fmt : PyStr.FormatString) : Prop :=
  ∀ field, PyStr.Field field ∈ fmt → field = "cls_name".

(** The store a default-template miss ends in when the decorated function
    has emitted [stmts] and nothing else was defined in its builder. *)
Definition single_procedure_store (d : Decoration) (tp : TypeInfo)
    (ex : Extras) (c : option ClsCtx) (G : gmap Key string)
    (fm : FunctionBuilder) (nm : string) (stmts : list string) (s : Store)
    : Store :=
  let p := procedure_of ["v1"] stmts (length (scopes s)) in
  {| guards :=
       <[recursion_guard ex := <[cache_key d tp := nm]> G]> (guards s);
     builders :=
       <[fn_gen ex := {| functions := functions fm ++ [(nm, p)];
                         open_scopes := open_scopes fm |}]>
         (builders s ++ [{| functions := [(nm, p)]; open_scopes := [] |}]);
     dicts :=
       dicts s ++ [{| recursion_guard := recursion_guard ex;
                      cls_name := cls_name ex;
                      fn_gen := length (builders s);
                      locals := length (scopes s) |}];
     scopes := scopes s ++ [{["cls" := cache_key d tp]}];
     trace :=
       trace s ++ [{| inv_guard := recursion_guard ex;
                      inv_key := cache_key d tp;
                      inv_func := func_name (func d);
                      inv_cls := passed c;
                      inv_extras := length (dicts s) |}] |}.

Module Samples.

(** [def load_to_int(tp, extras)]: a compiler for a leaf type. *)
Definition load_to_int : PyCallable :=
  {| func_name := "load_to_int";
     co_argcount := Some 2;
     func_body := λ _ _, emits ["return int(v1)"] Return |}.

Definition d_int : Decoration :=
  {| func := load_to_int; fn_name := None; is_generic := false |}.

Definition tp_int : TypeInfo :=
  {| origin := 5%positive; args := []; name := "int"; field_i := 3;
     v := "v1['age']" |}.

(** A compiler that opens the procedure itself, with a parameter of its
    own, decorated with [fn_name='load_{cls_name}']. *)
Definition load_to_record : PyCallable :=
  {| func_name := "load_to_record";
     co_argcount := Some 2;
     func_body := λ _ _,
       WithFunction "load_Node" ["v1"; "strict"]
         (emits ["return cls(v1, strict)"] Return) Return |}.

Definition d_record : Decoration :=
  {| func := load_to_record;
     fn_name := Some [PyStr.Lit "load_"; PyStr.Field "cls_name"];
     is_generic := false |}.

(** The same compiler under [fn_name='load_{name}']. *)
Definition d_misnamed : Decoration :=
  {| func := load_to_record;
     fn_name := Some [PyStr.Lit "load_"; PyStr.Field "name"];
     is_generic := false |}.

(** The leaf compiler under [fn_name='']. *)
Definition d_int_empty : Decoration :=
  {| func := load_to_int; fn_name := Some []; is_generic := false |}.

(** The leaf compiler under [fn_name='load_{cls_name}'], with no scope of
    its own. *)
Definition d_int_named : Decoration :=
  {| func := load_to_int;
     fn_name := Some [PyStr.Lit "load_"; PyStr.Field "cls_name"];
     is_generic := false |}.

(** [def load_to_linked(tp, extras)]: the compiler of a record with one
    field of its own type. *)
Definition tp_linked (expr : string) : TypeInfo :=
  {| origin := 9%positive; args := []; name := "Linked"; field_i := 0;
     v := expr |}.

Definition load_to_linked : PyCallable :=
  {| func_name := "load_to_linked";
     co_argcount := Some 2;
     func_body := λ _ _,
       Call 0 None (tp_linked "v1['next']")
         (λ r, emits ["return cls(" +:+ r +:+ ")"] Return) |}.

Definition d_linked : Decoration :=
  {| func := load_to_linked; fn_name := None; is_generic := false |}.

(** [def load_to_holder(tp, extras)]: the compiler of a record with one
    field of a leaf type, compiled by [load_to_int]. *)
Definition tp_holder : TypeInfo :=
  {| origin := 11%positive; args := []; name := "Holder"; field_i := 0;
     v := "v1" |}.

Definition load_to_holder : PyCallable :=
  {| func_name := "load_to_holder";
     co_argcount := Some 2;
     func_body := λ _ _,
       Call 1 None tp_int
         (λ r, emits ["return cls(" +:+ r +:+ ")"] Return) |}.

Definition d_holder : Decoration :=
  {| func := load_to_holder; fn_name := None; is_generic := false |}.

Definition holder_registry : list Wrapper :=
  [wrapper_logic d_holder; wrapper_logic d_int].

(** Two records that refer to each other: [Left] has a field of type
    [Right], [Right] a field of type [Left]. *)
Definition tp_left (expr : string) : TypeInfo :=
  {| origin := 13%positive; args := []; name := "Left"; field_i := 0;
     v := expr |}.

Definition tp_right (expr : string) : TypeInfo :=
  {| origin := 14%positive; args := []; name := "Right"; field_i := 0;
     v := expr |}.

Definition load_to_left : PyCallable :=
  {| func_name := "load_to_left";
     co_argcount := Some 2;
     func_body := λ _ _,
       Call 1 None (tp_right "v1['right']")
         (λ r, emits ["return cls(" +:+ r +:+ ")"] Return) |}.

Definition load_to_right : PyCallable :=
  {| func_name := "load_to_right";
     co_argcount := Some 2;
     func_body := λ _ _,
       Call 0 None (tp_left "v1['left']")
         (λ r, emits ["return cls(" +:+ r +:+ ")"] Return) |}.

Definition d_left : Decoration :=
  {| func := load_to_left; fn_name := None; is_generic := false |}.

Definition d_right : Decoration :=
  {| func := load_to_right; fn_name := None; is_generic := false |}.

Definition mutual_registry : list Wrapper :=
  [wrapper_logic d_left; wrapper_logic d_right].

(** Two classes that are both named [Item], one a record with a field
    of the other, compiled by the same function. *)
Definition tp_item : TypeInfo :=
  {| origin := 21%positive; args := []; name := "Item"; field_i := 0;
     v := "v1" |}.

Definition tp_item_part : TypeInfo :=
  {| origin := 22%positive; args := []; name := "Item"; field_i := 1;
     v := "v1['part']" |}.

Definition load_to_rec : PyCallable :=
  {| func_name := "load_to_rec";
     co_argcount := Some 2;
     func_body := λ _ tp,
       if Pos.eqb (origin tp) 21
       then Call 0 None tp_item_part
              (λ r, emits ["return cls(" +:+ r +:+ ")"] Return)
       else emits ["return v1"] Return |}.

Definition d_rec : Decoration :=
  {| func := load_to_rec; fn_name := None; is_generic := false |}.

Definition item_compiled : Res string :=
  compile [wrapper_logic d_rec] 2 (wrapper_logic d_rec) None tp_item 0
    Demo.root.

End Samples.

(** ** Lists and strings *)

Lemma lookup_end {A} (l : list A) (x : A) : (l ++ [x]) !! length l = Some x.
Proof. by apply list_lookup_middle. Qed.

Lemma insert_end {A} (l : list A) (x y : A) :
  <[length l := y]> (l ++ [x]) = l ++ [y].
Proof. rewrite insert_app_r_alt; [|done]. by rewrite Nat.sub_diag. Qed.

Lemma alter_end {A} (f : A → A) (l : list A) (x : A) :
  alter f (length l) (l ++ [x]) = l ++ [f x].
Proof. rewrite alter_app_r_alt; [|done]. by rewrite Nat.sub_diag. Qed.

Lemma append_length (s t : string) :
  String.length (s +:+ t) = String.length s + String.length t.
Proof. induction s as [|a s IH]; simpl; [done | by rewrite IH]. Qed.

Lemma append_inv_tail (s1 s2 t : string) : s1 +:+ t = s2 +:+ t → s1 = s2.
Proof.
  revert s2. induction s1 as [|a s1 IH]; intros [|b s2] H.
  - done.
  - apply (f_equal String.length) in H. rewrite !append_length in H.
    simpl in H. lia.
  - apply (f_equal String.length) in H. rewrite !append_length in H.
    simpl in H. lia.
  - change (String a (s1 +:+ t) = String b (s2 +:+ t)) in H.
    injection H as -> H. f_equal. by apply IH.
Qed.

Lemma append_inv_head (s t1 t2 : string) : s +:+ t1 = s +:+ t2 → t1 = t2.
Proof. induction s as [|a s IH]; simpl; intros H; [done|]. injection H. auto. Qed.

(** ** One step of the wrapper *)

Section Step.

Variable call : PyCallable → option ClsCtx → TypeInfo → loc → M unit.

Lemma wrapper_hit d tp e c s ex G nm :
  dicts s !! e = Some ex →
  guards s !! recursion_guard ex = Some G →
  G !! cache_key d tp = Some nm →
  _wrapper_logic call d tp e c s = Ok (nm +:+ "(" +:+ v tp +:+ ")") s.
Proof.
  intros He Hg Hk.
  unfold _wrapper_logic, bind, Heap.get_extras, Heap.guard_get, bind, deref, ret.
  rewrite He. simpl. rewrite Hg. simpl. by rewrite Hk.
Qed.

Lemma wrapper_dangling_extras d tp e c s :
  dicts s !! e = None →
  _wrapper_logic call d tp e c s = Raise (Failure "dangling reference") s.
Proof.
  intros He. unfold _wrapper_logic, bind, Heap.get_extras, deref, raise.
  by rewrite He.
Qed.

Lemma wrapper_dangling_guard d tp e c s ex :
  dicts s !! e = Some ex →
  guards s !! recursion_guard ex = None →
  _wrapper_logic call d tp e c s = Raise (Failure "dangling reference") s.
Proof.
  intros He Hg.
  unfold _wrapper_logic, bind, Heap.get_extras, Heap.guard_get, bind, deref, raise.
  rewrite He. simpl. by rewrite Hg.
Qed.

Lemma wrapper_name_error d tp e c s ex G x :
  dicts s !! e = Some ex →
  guards s !! recursion_guard ex = Some G →
  G !! cache_key d tp = None →
  reserved_name d (cls_name ex) tp = inl x →
  _wrapper_logic call d tp e c s = Raise x s.
Proof.
  intros He Hg Hk Hn.
  unfold _wrapper_logic, bind, Heap.get_extras, Heap.guard_get, bind, deref, ret.
  rewrite He. simpl. rewrite Hg. simpl. rewrite Hk, Hn. done.
Qed.

Lemma wrapper_miss d tp e c s ex G nm :
  dicts s !! e = Some ex →
  guards s !! recursion_guard ex = Some G →
  G !! cache_key d tp = None →
  reserved_name d (cls_name ex) tp = inr nm →
  _wrapper_logic call d tp e c s
  = after_body d tp (fn_gen ex) (length (builders s)) nm
      (call (func d) (passed c) tp (length (dicts s))
         (entry_store d tp ex nm c s)).
Proof.
  intros He Hg Hk Hn.
  unfold _wrapper_logic, bind, Heap.get_extras, Heap.guard_get, bind, deref, ret.
  rewrite He. simpl. rewrite Hg. simpl. rewrite Hk, Hn. simpl.
  unfold Heap.guard_set, bind, deref, ret. rewrite Hg. simpl.
  unfold Heap.copy_extras, bind, deref, ret. simpl. rewrite He. simpl.
  unfold Heap.store_locals, Heap.store_fn_gen, bind, deref, ret. simpl.
  rewrite lookup_end. simpl. rewrite insert_end, lookup_end. simpl.
  rewrite insert_end.
  unfold after_body, close_scope, entry_store, guard_at, passed.
  rewrite Hg. simpl.
  destruct (fn_name_given d) as [fmt|] eqn:Hfmt.
  - unfold Heap.log, bind. simpl.
    destruct (call _ _ _ _ _); done.
  - unfold Heap.with_function, bind, deref, ret, finally. simpl.
    rewrite lookup_end. simpl.
    unfold Heap.log, Heap.update_builder. simpl. rewrite alter_end.
    destruct (call _ _ _ _ _); done.
Qed.

End Step.

(** ** How the store evolves *)

Lemma evolves_refl g b s : evolves g b s s.
Proof.
  split; try done.
  exists []. rewrite app_nil_r. repeat split; try constructor.
  - by intros k ?%elem_of_nil.
  - simpl. set_solver.
Qed.

Lemma evolves_trans g b b' s s1 s2 :
  evolves g b s s1 → evolves g b' s1 s2 →
  b' = b ∨ length (builders s) ≤ b' →
  evolves g b s s2.
Proof.
  intros [D1 L1 GL1 GO1 G1 BL1 BO1 (new1 & T1 & N1 & F1 & K1 & Dm1)]
         [D2 L2 GL2 GO2 G2 BL2 BO2 (new2 & T2 & N2 & F2 & K2 & Dm2)] Hb.
  split.
  - by etrans.
  - by etrans.
  - congruence.
  - intros g' Hg'. rewrite GO2, GO1; done.
  - by etrans.
  - lia.
  - intros c Hc Hcb. rewrite BO2, BO1; try done; try lia.
  - exists (new1 ++ new2). unfold invoked in *. rewrite fmap_app.
    repeat split.
    + by rewrite T2, T1, app_assoc.
    + apply NoDup_app. repeat split; try done.
      intros k Hk1 Hk2. apply K2 in Hk2.
      assert (k ∈ dom (guard_at g s1)) as Hd by (rewrite Dm1; set_solver).
      apply elem_of_dom in Hd. rewrite Hk2 in Hd. by destruct Hd.
    + by apply Forall_app.
    + intros k [Hk|Hk]%elem_of_app; [by apply K1|].
      apply K2 in Hk. by eapply lookup_weaken_None.
    + rewrite Dm2, Dm1, list_to_set_app_L. set_solver.
Qed.

Lemma evolves_builders g b s bs :
  length (builders s) ≤ length bs →
  (∀ b', b' < length (builders s) → b' ≠ b → bs !! b' = builders s !! b') →
  evolves g b s (Heap.set_builders bs s).
Proof.
  intros Hl Ho. split; simpl; try done.
  exists []. rewrite app_nil_r. repeat split; try constructor.
  - by intros k ?%elem_of_nil.
  - simpl. set_solver.
Qed.

Lemma evolves_update_builder g b f s :
  evolves g b s (Heap.update_builder b f s).
Proof.
  apply evolves_builders.
  - by rewrite length_alter.
  - intros b' _ Hb. by rewrite list_lookup_alter_ne.
Qed.

Lemma evolves_insert_builder g b fb s :
  evolves g b s (Heap.set_builders (<[b := fb]> (builders s)) s).
Proof.
  apply evolves_builders.
  - by rewrite length_insert.
  - intros b' _ Hb. by rewrite list_lookup_insert_ne.
Qed.

Lemma guard_at_entry d tp ex nm c s G :
  guards s !! recursion_guard ex = Some G →
  guard_at (recursion_guard ex) (entry_store d tp ex nm c s)
  = <[cache_key d tp := nm]> G.
Proof.
  intros Hg.
  assert (guard_at (recursion_guard ex) s = G) as HG
    by (unfold guard_at; by rewrite Hg).
  unfold guard_at at 1. unfold entry_store. cbn [guards].
  rewrite list_lookup_insert_eq; [by rewrite HG|].
  by eapply lookup_lt_Some.
Qed.

Lemma evolves_entry d tp ex nm c b s G :
  guards s !! recursion_guard ex = Some G →
  G !! cache_key d tp = None →
  evolves (recursion_guard ex) b s (entry_store d tp ex nm c s).
Proof.
  intros Hg Hk.
  assert (guard_at (recursion_guard ex) s = G) as HG
    by (unfold guard_at; by rewrite Hg).
  split.
  - by apply prefix_app_r.
  - by apply prefix_app_r.
  - simpl. by rewrite length_insert.
  - intros g' Hg'. simpl. by rewrite list_lookup_insert_ne.
  - rewrite (guard_at_entry _ _ _ _ _ _ G), HG; [|done]. by apply insert_subseteq.
  - simpl. rewrite length_app. lia.
  - intros b' Hb' _. simpl. by rewrite lookup_app_l.
  - eexists [_]. repeat split.
    + simpl. apply NoDup_singleton.
    + by repeat constructor.
    + intros k Hin. simpl in Hin. apply list_elem_of_singleton in Hin as ->.
      by rewrite HG.
    + rewrite (guard_at_entry _ _ _ _ _ _ G), HG; [|done]. simpl.
      rewrite dom_insert_L. set_solver.
Qed.

Lemma res_evolves_bind {A B} g b (m : M A) (f : A → M B) s :
  res_evolves g b s (m s) →
  (∀ a s1, m s = Ok a s1 → res_evolves g b s1 (f a s1)) →
  res_evolves g b s (bind m f s).
Proof.
  intros Hm Hf s' Ho. unfold bind in Ho.
  destruct (m s) as [a s1|x s1|] eqn:E; [|by apply Hm|done].
  eapply evolves_trans; [by apply Hm| by eapply Hf |by left].
Qed.

Lemma res_evolves_emit g b stmt s :
  res_evolves g b s (Heap.emit b stmt s).
Proof.
  intros s' Ho. unfold Heap.emit, bind, deref, ret, raise in Ho.
  destruct (builders s !! b) as [fb|]; simpl in Ho;
    [|injection Ho as <-; apply evolves_refl].
  destruct (FB.emit stmt fb); simpl in Ho; injection Ho as <-.
  - apply evolves_insert_builder.
  - apply evolves_refl.
Qed.

Lemma res_evolves_with_function {A} g b proc params dflt free (m : M A) s :
  (∀ s1, evolves g b s s1 → res_evolves g b s1 (m s1)) →
  res_evolves g b s (Heap.with_function b proc params dflt free m s).
Proof.
  intros Hm s' Ho. unfold Heap.with_function, bind, deref, ret, raise, finally in Ho.
  destruct (builders s !! b) as [fb|]; simpl in Ho;
    [|injection Ho as <-; apply evolves_refl].
  pose proof (evolves_update_builder g b (FB.begin_procedure proc params dflt free) s) as H1.
  specialize (Hm _ H1).
  destruct (m _) as [a s1|x s1|]; simpl in Ho; [| |done]; injection Ho as <-.
  - eapply evolves_trans; [|apply evolves_update_builder|by left].
    eapply evolves_trans; [done|by apply Hm|by left].
  - eapply evolves_trans; [|apply evolves_update_builder|by left].
    eapply evolves_trans; [done|by apply Hm|by left].
Qed.

Lemma res_evolves_merge g b other s :
  res_evolves g b s (Heap.merge b other s).
Proof.
  intros s' Ho. unfold Heap.merge, bind, deref, ret, raise, lift in Ho.
  destruct (builders s !! b) as [fb|]; simpl in Ho;
    [|injection Ho as <-; apply evolves_refl].
  destruct (builders s !! other) as [fo|]; simpl in Ho;
    [|injection Ho as <-; apply evolves_refl].
  destruct (FB.merge fb fo); simpl in Ho; injection Ho as <-.
  - apply evolves_refl.
  - apply evolves_insert_builder.
Qed.

Lemma evolves_extras g b s s1 e (ex : Extras) :
  evolves g b s s1 → dicts s !! e = Some ex → dicts s1 !! e = Some ex.
Proof. intros [D _ _ _ _ _ _ _] He. by eapply prefix_lookup_Some. Qed.

Lemma evolves_close_scope g d nb s : evolves g nb s (close_scope d nb s).
Proof.
  unfold close_scope. destruct (fn_name_given d).
  - apply evolves_refl.
  - apply evolves_update_builder.
Qed.

Lemma run_body_evolves (inv : Invoke) :
  (∀ callee c tp e s ex,
      dicts s !! e = Some ex →
      res_evolves (recursion_guard ex) (fn_gen ex) s (inv callee c tp e s)) →
  ∀ b e s ex,
    dicts s !! e = Some ex →
    res_evolves (recursion_guard ex) (fn_gen ex) s (run_body inv e b s).
Proof.
  intros Hinv b.
  induction b as [|stmt k IH|callee c tp k IH|proc params inner IHi k IHk|x];
    intros e s ex He; simpl.
  - intros s' [= <-]. apply evolves_refl.
  - apply res_evolves_bind.
    + unfold Heap.get_extras. rewrite He. intros s' [= <-]. apply evolves_refl.
    + intros ex' s0. unfold Heap.get_extras. rewrite He.
      intros [= Hex Hs]; subst ex' s0.
      apply res_evolves_bind; [apply res_evolves_emit|].
      intros [] s1 Hs1. apply IH.
      eapply evolves_extras; [|done].
      eapply (res_evolves_emit (recursion_guard ex) (fn_gen ex) stmt s).
      by rewrite Hs1.
  - apply res_evolves_bind; [by apply Hinv|].
    intros r s1 Hs1. apply IH.
    eapply evolves_extras; [|done].
    eapply (Hinv callee c tp e s ex He). by rewrite Hs1.
  - apply res_evolves_bind.
    + unfold Heap.get_extras. rewrite He. intros s' [= <-]. apply evolves_refl.
    + intros ex' s0. unfold Heap.get_extras. rewrite He.
      intros [= Hex Hs]; subst ex' s0.
      assert (res_evolves (recursion_guard ex) (fn_gen ex) s
                (Heap.with_function (fn_gen ex) proc params MISSING (locals ex)
                   (run_body inv e inner) s)) as Hw.
      { apply res_evolves_with_function. intros s1 Hs1. apply IHi.
        by eapply evolves_extras. }
      apply res_evolves_bind; [done|].
      intros [] s1 Hs1. apply IHk.
      eapply evolves_extras; [|done]. apply Hw. by rewrite Hs1.
  - intros s' [= <-]. apply evolves_refl.
Qed.

Lemma after_body_evolves d tp ex nm c s G r :
  guards s !! recursion_guard ex = Some G →
  G !! cache_key d tp = None →
  res_evolves (recursion_guard ex) (length (builders s))
    (entry_store d tp ex nm c s) r →
  res_evolves (recursion_guard ex) (fn_gen ex) s
    (after_body d tp (fn_gen ex) (length (builders s)) nm r).
Proof.
  intros Hg Hk Hr s' Ho.
  pose proof (evolves_entry d tp ex nm c (fn_gen ex) s G Hg Hk) as H0.
  assert (∀ s1, outcome r = Some s1 →
                evolves (recursion_guard ex) (fn_gen ex) s
                  (close_scope d (length (builders s)) s1)) as Hc.
  { intros s1 Hs1.
    eapply evolves_trans; [done| |by right].
    eapply evolves_trans; [by apply Hr|apply evolves_close_scope|by left]. }
  destruct r as [[] s1|x s1|]; simpl in Ho; [| |done].
  - eapply evolves_trans; [by apply Hc| |by left].
    unfold bind in Ho.
    pose proof (res_evolves_merge (recursion_guard ex) (fn_gen ex)
                  (length (builders s))
                  (close_scope d (length (builders s)) s1)) as Hm.
    destruct (Heap.merge _ _ _) as [[] s2|y s2|]; simpl in Ho; [| |done];
      injection Ho as <-; by apply Hm.
  - injection Ho as <-. by apply Hc.
Qed.

Lemma entry_store_extras d tp ex nm c s :
  dicts (entry_store d tp ex nm c s) !! length (dicts s)
  = Some {| recursion_guard := recursion_guard ex; cls_name := cls_name ex;
            fn_gen := length (builders s); locals := length (scopes s) |}.
Proof. unfold entry_store. cbn [dicts]. apply lookup_end. Qed.

Lemma wrapper_evolves call :
  (∀ f c tp e s ex,
      dicts s !! e = Some ex →
      res_evolves (recursion_guard ex) (fn_gen ex) s (call f c tp e s)) →
  ∀ d tp e c s ex,
    dicts s !! e = Some ex →
    res_evolves (recursion_guard ex) (fn_gen ex) s (_wrapper_logic call d tp e c s).
Proof.
  intros Hcall d tp e c s ex He.
  destruct (guards s !! recursion_guard ex) as [G|] eqn:Hg.
  2: { rewrite (wrapper_dangling_guard _ _ _ _ _ _ ex); [|done..].
       intros s' [= <-]. apply evolves_refl. }
  destruct (G !! cache_key d tp) as [nm|] eqn:Hk.
  { rewrite (wrapper_hit _ _ _ _ _ _ ex G nm); [|done..].
    intros s' [= <-]. apply evolves_refl. }
  destruct (reserved_name d (cls_name ex) tp) as [x|nm] eqn:Hn.
  { rewrite (wrapper_name_error _ _ _ _ _ _ ex G x); [|done..].
    intros s' [= <-]. apply evolves_refl. }
  rewrite (wrapper_miss _ _ _ _ _ _ ex G nm); [|done..].
  eapply after_body_evolves; [done..|].
  pose proof (Hcall (func d) (passed c) tp (length (dicts s))
                (entry_store d tp ex nm c s) _
                (entry_store_extras d tp ex nm c s)) as H.
  exact H.
Qed.

Section Run.

Variable registry : list Wrapper.

Lemma call_func_evolves n f c tp e s ex :
  dicts s !! e = Some ex →
  res_evolves (recursion_guard ex) (fn_gen ex) s
    (call_func registry n f c tp e s).
Proof.
  revert f c tp e s ex. induction n as [|n IH]; intros f c tp e s ex He.
  - by intros s'.
  - simpl. apply run_body_evolves; [|done].
    intros callee c' tp' e' s1 ex1 He1.
    destruct (registry !! callee) as [[d|d]|].
    + simpl. by apply wrapper_evolves.
    + simpl. by apply wrapper_evolves.
    + intros s' [= <-]. apply evolves_refl.
Qed.

Lemma compile_evolves n w c tp e s ex :
  dicts s !! e = Some ex →
  res_evolves (recursion_guard ex) (fn_gen ex) s
    (compile registry n w c tp e s).
Proof.
  intros He. unfold compile.
  destruct w; simpl; apply wrapper_evolves; try done;
    intros; by apply call_func_evolves.
Qed.

End Run.

(** ** Termination *)

Lemma call_wrapper_logic call w c tp e :
  call_wrapper call w c tp e = _wrapper_logic call (decoration w) tp e c.
Proof. by destruct w. Qed.

Lemma after_body_fuel d tp main nb nm r :
  r ≠ OutOfFuel → after_body d tp main nb nm r ≠ OutOfFuel.
Proof.
  destruct r as [[] s1|x s1|]; simpl; [|done..].
  intros _. unfold bind, Heap.merge, bind, deref, lift, ret, raise.
  destruct (builders _ !! main); simpl; [|done].
  destruct (builders _ !! nb); simpl; [|done].
  by destruct (FB.merge _ _).
Qed.

Lemma pending_insert (U : gset Key) (G : gmap Key string) k nm n :
  k ∈ U → G !! k = None →
  size (U ∖ dom G) ≤ S n → size (U ∖ dom (<[k := nm]> G)) ≤ n.
Proof.
  intros HU Hk Hn.
  assert (U ∖ dom (<[k := nm]> G) ⊂ U ∖ dom G) as Hs.
  { rewrite dom_insert_L. apply not_elem_of_dom in Hk. set_solver. }
  apply subset_size in Hs. lia.
Qed.

Lemma pending_mono (U : gset Key) (G G' : gmap Key string) n :
  G ⊆ G' → size (U ∖ dom G) ≤ n → size (U ∖ dom G') ≤ n.
Proof.
  intros HG Hn. apply subseteq_dom in HG.
  assert (U ∖ dom G' ⊆ U ∖ dom G) as Hs by set_solver.
  apply subseteq_size in Hs. lia.
Qed.

Section Termination.

Variable registry : list Wrapper.
Variable U : gset Key.
Hypothesis graph : graph_within registry U.

Lemma run_body_terminates (inv : Invoke) m :
  (∀ callee c tp e s ex,
      dicts s !! e = Some ex →
      res_evolves (recursion_guard ex) (fn_gen ex) s (inv callee c tp e s)) →
  (∀ callee w c tp e s ex,
      registry !! callee = Some w →
      cache_key (decoration w) tp ∈ U →
      dicts s !! e = Some ex →
      size (U ∖ dom (guard_at (recursion_guard ex) s)) ≤ m →
      inv callee c tp e s ≠ OutOfFuel) →
  (∀ callee c tp e s,
      registry !! callee = None → inv callee c tp e s ≠ OutOfFuel) →
  ∀ b e s ex,
    within registry U b →
    dicts s !! e = Some ex →
    size (U ∖ dom (guard_at (recursion_guard ex) s)) ≤ m →
    run_body inv e b s ≠ OutOfFuel.
Proof.
  intros Hev Hreg Hun b.
  induction b as [|stmt k IH|callee c tp k IH|proc params inner IHi k IHk|x];
    intros e s ex Hw He Hm; simpl.
  - done.
  - inversion Hw; subst.
    unfold bind at 1. unfold Heap.get_extras. rewrite He. simpl.
    unfold bind.
    pose proof (res_evolves_emit (recursion_guard ex) (fn_gen ex) stmt s) as Hs.
    destruct (Heap.emit _ _ _) as [[] s1|y s1|] eqn:E; [|done|].
    + specialize (Hs s1 eq_refl).
      apply (IH e s1 ex); [done|by eapply evolves_extras|].
      eapply pending_mono; [apply (ev_guard _ _ _ _ Hs)|done].
    + unfold Heap.emit, bind, deref, raise in E.
      destruct (builders s !! fn_gen ex); simpl in E; [|done].
      by destruct (FB.emit _ _).
  - inversion Hw as [| |? ? ? ? HU Hk| |]; subst.
    unfold bind.
    pose proof (Hev callee c tp e s ex He) as Hs.
    destruct (inv callee c tp e s) as [r s1|y s1|] eqn:E; [|done|].
    + specialize (Hs s1 eq_refl).
      apply (IH r e s1 ex); [done|by eapply evolves_extras|].
      eapply pending_mono; [apply (ev_guard _ _ _ _ Hs)|done].
    + exfalso. destruct (registry !! callee) as [w|] eqn:Hc.
      * eapply (Hreg callee w c tp e s ex); eauto.
      * eapply Hun; eauto.
  - inversion Hw; subst.
    unfold bind at 1. unfold Heap.get_extras. rewrite He. simpl.
    unfold bind.
    assert (res_evolves (recursion_guard ex) (fn_gen ex) s
              (Heap.with_function (fn_gen ex) proc params MISSING (locals ex)
                 (run_body inv e inner) s)) as Hwf.
    { apply res_evolves_with_function. intros s1 Hs1.
      apply run_body_evolves; [done|]. by eapply evolves_extras. }
    destruct (Heap.with_function _ _ _ _ _ _ _) as [[] s1|y s1|] eqn:E; [|done|].
    + specialize (Hwf s1 eq_refl).
      apply (IHk e s1 ex); [done|by eapply evolves_extras|].
      eapply pending_mono; [apply (ev_guard _ _ _ _ Hwf)|done].
    + unfold Heap.with_function, bind, deref, raise, finally in E.
      destruct (builders s !! fn_gen ex); simpl in E; [|done].
      pose proof (evolves_update_builder (recursion_guard ex) (fn_gen ex)
                    (FB.begin_procedure proc params MISSING (locals ex)) s) as Hb.
      destruct (run_body inv e inner _) eqn:E1; [done..|].
      exfalso. revert E1.
      apply (IHi e _ ex); [done|by eapply evolves_extras|].
      eapply pending_mono; [apply (ev_guard _ _ _ _ Hb)|done].
  - done.
Qed.

Lemma wrapper_terminates n :
  ∀ w c tp e s,
    w ∈ registry →
    cache_key (decoration w) tp ∈ U →
    (∀ ex, dicts s !! e = Some ex →
           size (U ∖ dom (guard_at (recursion_guard ex) s)) ≤ n) →
    call_wrapper (call_func registry n) w c tp e s ≠ OutOfFuel.
Proof.
  induction n as [|n IH]; intros w c tp e s Hw HU Hn;
    rewrite call_wrapper_logic.
  all: destruct (dicts s !! e) as [ex|] eqn:He;
    [|by rewrite wrapper_dangling_extras].
  all: specialize (Hn ex eq_refl).
  all: destruct (guards s !! recursion_guard ex) as [G|] eqn:Hg;
    [|by rewrite (wrapper_dangling_guard _ _ _ _ _ _ ex)].
  all: assert (guard_at (recursion_guard ex) s = G) as HG
      by (unfold guard_at; by rewrite Hg).
  all: destruct (G !! cache_key (decoration w) tp) as [nm|] eqn:Hk;
    [by rewrite (wrapper_hit _ _ _ _ _ _ ex G nm)|].
  all: destruct (reserved_name (decoration w) (cls_name ex) tp) as [x|nm] eqn:Hnm;
    [by rewrite (wrapper_name_error _ _ _ _ _ _ ex G x)|].
  - exfalso. rewrite HG in Hn.
    assert (cache_key (decoration w) tp ∈ U ∖ dom G) as Hin.
    { apply not_elem_of_dom in Hk. set_solver. }
    assert (size (U ∖ dom G) ≠ 0) as Hne.
    { intros H0. apply size_empty_inv in H0. set_solver. }
    lia.
  - rewrite (wrapper_miss _ _ _ _ _ _ ex G nm); [|done..].
    apply after_body_fuel. simpl.
    eapply (run_body_terminates _ n).
    + intros callee c' tp' e' s1 ex1 He1.
      destruct (registry !! callee) as [w'|].
      * rewrite call_wrapper_logic. apply wrapper_evolves; [|done].
        intros. by apply call_func_evolves.
      * intros s' [= <-]. apply evolves_refl.
    + intros callee w' c' tp' e' s1 ex1 Hc HU' He1 Hm. rewrite Hc.
      apply IH; [by eapply list_elem_of_lookup_2|done|].
      intros ex2 He2. by simplify_eq.
    + intros callee c' tp' e' s1 Hc. by rewrite Hc.
    + by apply graph.
    + apply entry_store_extras.
    + cbn [recursion_guard]. rewrite (guard_at_entry _ _ _ _ _ _ G); [|done].
      apply pending_insert; [done..|]. by rewrite <-HG.
Qed.

End Termination.

(** ** The result of a cache miss *)

Lemma merge_ok main other s s' :
  Heap.merge main other s = Ok tt s' →
  ∃ fm fo,
    builders s !! main = Some fm ∧ builders s !! other = Some fo
    ∧ FB.collision fm fo = None
    ∧ s' = Heap.set_builders
             (<[main := {| functions := functions fm ++ functions fo;
                           open_scopes := open_scopes fm |}]> (builders s)) s.
Proof.
  unfold Heap.merge, bind, deref, lift, ret, raise, FB.merge.
  destruct (builders s !! main) as [fm|]; simpl; [|done].
  destruct (builders s !! other) as [fo|]; simpl; [|done].
  destruct (FB.collision fm fo) eqn:Hc; simpl; [done|].
  intros [= <-]. by exists fm, fo.
Qed.

Lemma merge_raise main other s x s' :
  Heap.merge main other s = Raise x s' → s' = s.
Proof.
  unfold Heap.merge, bind, deref, lift, ret, raise, FB.merge.
  destruct (builders s !! main) as [fm|]; simpl; [|by intros [= _ <-]].
  destruct (builders s !! other) as [fo|]; simpl; [|by intros [= _ <-]].
  destruct (FB.collision fm fo); simpl; [by intros [= _ <-]|done].
Qed.

Lemma after_body_ok d tp main nb nm r0 r s' :
  after_body d tp main nb nm r0 = Ok r s' →
  r = nm +:+ "(" +:+ v tp +:+ ")"
  ∧ ∃ s1, r0 = Ok tt s1 ∧ Heap.merge main nb (close_scope d nb s1) = Ok tt s'.
Proof.
  destruct r0 as [[] s1|x s1|]; simpl; [|done..].
  unfold bind, ret.
  destruct (Heap.merge _ _ _) as [[] s2|y s2|] eqn:E; [|done..].
  intros [= <- <-]. split; [done|]. by exists s1.
Qed.

Lemma after_body_raise d tp main nb nm r0 x s' :
  after_body d tp main nb nm r0 = Raise x s' →
  ∃ s1, s' = close_scope d nb s1 ∧ (r0 = Raise x s1 ∨ r0 = Ok tt s1).
Proof.
  destruct r0 as [[] s1|y s1|]; simpl; [| |done].
  - unfold bind, ret.
    destruct (Heap.merge _ _ _) as [[] s2|z s2|] eqn:E; [done| |done].
    intros [= <- <-]. apply merge_raise in E as ->. exists s1. auto.
  - intros [= <- <-]. exists s1. auto.
Qed.

Lemma entry_store_guard d tp ex nm c s G :
  guards s !! recursion_guard ex = Some G →
  guard_at (recursion_guard ex) (entry_store d tp ex nm c s) !! cache_key d tp
  = Some nm.
Proof.
  intros Hg. rewrite (guard_at_entry _ _ _ _ _ _ G); [|done].
  apply lookup_insert_eq.
Qed.

Lemma guard_at_close_scope g d nb s :
  guard_at g (close_scope d nb s) = guard_at g s.
Proof. unfold close_scope. by destruct (fn_name_given d). Qed.

Lemma guard_at_lookup g s k nm :
  guard_at g s !! k = Some nm →
  ∃ G, guards s !! g = Some G ∧ G !! k = Some nm.
Proof.
  unfold guard_at. destruct (guards s !! g) as [G|]; simpl; [eauto|].
  by rewrite lookup_empty.
Qed.

(** A request that returns names the procedure the guard holds for its
    key. *)
Lemma wrapper_returns call d tp e c s ex r s' :
  (∀ f c tp e s ex,
      dicts s !! e = Some ex →
      res_evolves (recursion_guard ex) (fn_gen ex) s (call f c tp e s)) →
  dicts s !! e = Some ex →
  _wrapper_logic call d tp e c s = Ok r s' →
  ∃ nm, guard_at (recursion_guard ex) s' !! cache_key d tp = Some nm
        ∧ r = nm +:+ "(" +:+ v tp +:+ ")".
Proof.
  intros Hcall He Hr.
  destruct (guards s !! recursion_guard ex) as [G|] eqn:Hg.
  2: { by rewrite (wrapper_dangling_guard _ _ _ _ _ _ ex) in Hr. }
  destruct (G !! cache_key d tp) as [nm|] eqn:Hk.
  { rewrite (wrapper_hit _ _ _ _ _ _ ex G nm) in Hr; [|done..].
    injection Hr as <- <-. exists nm. split; [|done].
    unfold guard_at. by rewrite Hg. }
  destruct (reserved_name d (cls_name ex) tp) as [x|nm] eqn:Hn.
  { by rewrite (wrapper_name_error _ _ _ _ _ _ ex G x) in Hr. }
  rewrite (wrapper_miss _ _ _ _ _ _ ex G nm) in Hr; [|done..].
  apply after_body_ok in Hr as (-> & s1 & Hs1 & Hm).
  exists nm. split; [|done].
  pose proof (Hcall (func d) (passed c) tp (length (dicts s))
                (entry_store d tp ex nm c s) _
                (entry_store_extras d tp ex nm c s)) as Hev.
  rewrite Hs1 in Hev. specialize (Hev s1 eq_refl). cbn [recursion_guard] in Hev.
  pose proof (res_evolves_merge (recursion_guard ex) (fn_gen ex)
                (length (builders s))
                (close_scope d (length (builders s)) s1)) as Hmg.
  rewrite Hm in Hmg. specialize (Hmg s' eq_refl).
  eapply lookup_weaken; [|apply (ev_guard _ _ _ _ Hmg)].
  rewrite guard_at_close_scope.
  eapply lookup_weaken; [|apply (ev_guard _ _ _ _ Hev)].
  by eapply entry_store_guard.
Qed.

(** From the store the decorated function starts in to the end of the
    request, the guard only grows and the builders of the caller are left
    alone, up to the final merge. *)
Lemma after_body_from_entry d tp ex nm c s r0 s' :
  res_evolves (recursion_guard ex) (length (builders s))
    (entry_store d tp ex nm c s) r0 →
  outcome (after_body d tp (fn_gen ex) (length (builders s)) nm r0) = Some s' →
  ∃ s1, outcome r0 = Some s1
        ∧ evolves (recursion_guard ex) (length (builders s))
            (entry_store d tp ex nm c s) (close_scope d (length (builders s)) s1)
        ∧ evolves (recursion_guard ex) (fn_gen ex)
            (close_scope d (length (builders s)) s1) s'.
Proof.
  intros Hr Ho.
  assert (∀ s1, outcome r0 = Some s1 →
                evolves (recursion_guard ex) (length (builders s))
                  (entry_store d tp ex nm c s)
                  (close_scope d (length (builders s)) s1)) as Hc.
  { intros s1 Hs1.
    eapply evolves_trans; [by apply Hr|apply evolves_close_scope|by left]. }
  destruct r0 as [[] s1|x s1|]; simpl in Ho; [| |done].
  - exists s1. split; [done|]. split; [by apply Hc|].
    unfold bind in Ho.
    pose proof (res_evolves_merge (recursion_guard ex) (fn_gen ex)
                  (length (builders s))
                  (close_scope d (length (builders s)) s1)) as Hm.
    destruct (Heap.merge _ _ _) as [[] s2|y s2|]; simpl in Ho; [| |done];
      injection Ho as <-; by apply Hm.
  - injection Ho as <-. exists s1. split; [done|]. split; [by apply Hc|].
    apply evolves_refl.
Qed.

Lemma wrapper_miss_guard call d tp e c s ex G nm s' :
  (∀ f c tp e s ex,
      dicts s !! e = Some ex →
      res_evolves (recursion_guard ex) (fn_gen ex) s (call f c tp e s)) →
  dicts s !! e = Some ex →
  guards s !! recursion_guard ex = Some G →
  G !! cache_key d tp = None →
  reserved_name d (cls_name ex) tp = inr nm →
  outcome (_wrapper_logic call d tp e c s) = Some s' →
  <[cache_key d tp := nm]> G ⊆ guard_at (recursion_guard ex) s'.
Proof.
  intros Hcall He Hg Hk Hn Ho.
  rewrite (wrapper_miss _ _ _ _ _ _ ex G nm) in Ho; [|done..].
  apply (after_body_from_entry d tp ex nm c s) in Ho as (s1 & _ & H1 & H2).
  - rewrite <-(guard_at_entry d tp ex nm c s G Hg).
    etrans; [apply (ev_guard _ _ _ _ H1)|apply (ev_guard _ _ _ _ H2)].
  - apply (Hcall (func d) (passed c) tp (length (dicts s))
             (entry_store d tp ex nm c s) _ (entry_store_extras d tp ex nm c s)).
Qed.

Lemma wrapper_reserves registry n d tp e c s ex G nm s' :
  dicts s !! e = Some ex →
  guards s !! recursion_guard ex = Some G →
  G !! cache_key d tp = None →
  reserved_name d (cls_name ex) tp = inr nm →
  outcome (_wrapper_logic (call_func registry n) d tp e c s) = Some s' →
  guard_at (recursion_guard ex) s' !! cache_key d tp = Some nm.
Proof.
  intros He Hg Hk Hn Ho.
  eapply lookup_weaken; [apply lookup_insert_eq|].
  eapply wrapper_miss_guard; [|done..].
  intros. by apply call_func_evolves.
Qed.

(** ** The builder of the caller *)

Lemma close_scope_builders d nb s b :
  b ≠ nb → builders (close_scope d nb s) !! b = builders s !! b.
Proof.
  intros Hb. unfold close_scope. destruct (fn_name_given d); [done|].
  unfold Heap.update_builder. cbn [builders Heap.set_builders].
  by apply list_lookup_alter_ne.
Qed.

Lemma close_scope_frame d nb s :
  dicts (close_scope d nb s) = dicts s
  ∧ scopes (close_scope d nb s) = scopes s
  ∧ trace (close_scope d nb s) = trace s.
Proof. unfold close_scope. by destruct (fn_name_given d). Qed.

(** While the decorated function runs, and until the merge, the builder
    of the caller is as the request found it. *)
Lemma parent_builder_until_merge d tp ex nm c s s1 :
  is_Some (builders s !! fn_gen ex) →
  evolves (recursion_guard ex) (length (builders s))
    (entry_store d tp ex nm c s) s1 →
  builders (close_scope d (length (builders s)) s1) !! fn_gen ex
  = builders s !! fn_gen ex.
Proof.
  intros Hm Hev. apply lookup_lt_is_Some in Hm.
  rewrite close_scope_builders; [|lia].
  rewrite (ev_builders_other _ _ _ _ Hev); [| |lia].
  - unfold entry_store. cbn [builders]. by rewrite lookup_app_l.
  - unfold entry_store. cbn [builders]. rewrite length_app. lia.
Qed.

(** ** The keys that are entered *)

Lemma traced_within_trace U t0 s s' :
  trace s' = trace s → traced_within U t0 s → traced_within U t0 s'.
Proof. intros Ht (new & Hn & HU). exists new. by rewrite Ht. Qed.

Lemma emit_trace b stmt s s' :
  outcome (Heap.emit b stmt s) = Some s' → trace s' = trace s.
Proof.
  unfold Heap.emit, bind, deref, ret, raise.
  destruct (builders s !! b) as [fb|]; simpl; [|by intros [= <-]].
  destruct (FB.emit stmt fb); simpl; by intros [= <-].
Qed.

Lemma merge_trace main other s s' :
  outcome (Heap.merge main other s) = Some s' → trace s' = trace s.
Proof.
  unfold Heap.merge, bind, deref, ret, raise, lift.
  destruct (builders s !! main) as [fm|]; simpl; [|by intros [= <-]].
  destruct (builders s !! other) as [fo|]; simpl; [|by intros [= <-]].
  destruct (FB.merge fm fo); simpl; by intros [= <-].
Qed.

Section Keys.

Variable registry : list Wrapper.
Variable U : gset Key.
Hypothesis graph : graph_within registry U.
Variable t0 : list Invocation.

Lemma run_body_keys (inv : Invoke) :
  (∀ callee c tp e s s',
      (∀ w, registry !! callee = Some w → cache_key (decoration w) tp ∈ U) →
      traced_within U t0 s →
      outcome (inv callee c tp e s) = Some s' →
      traced_within U t0 s') →
  ∀ b e s s',
    within registry U b →
    traced_within U t0 s →
    outcome (run_body inv e b s) = Some s' →
    traced_within U t0 s'.
Proof.
  intros Hinv b.
  induction b as [|stmt k IH|callee c tp k IH|proc params inner IHi k IHk|x];
    intros e s s' Hw Ht; simpl.
  - by intros [= <-].
  - inversion Hw; subst. unfold bind at 1, Heap.get_extras, deref.
    destruct (dicts s !! e) as [ex|]; simpl; [|by intros [= <-]].
    unfold bind.
    destruct (Heap.emit (fn_gen ex) stmt s) as [[] s1|y s1|] eqn:E; simpl.
    + apply IH; [done|]. eapply traced_within_trace; [|done].
      eapply emit_trace. by rewrite E.
    + intros [= <-]. eapply traced_within_trace; [|done].
      eapply emit_trace. by rewrite E.
    + done.
  - inversion Hw as [| |? ? ? ? HU Hk| |]; subst. unfold bind.
    destruct (inv callee c tp e s) as [r s1|y s1|] eqn:E; simpl.
    + apply IH; [done|]. eapply Hinv; [done..|]. by rewrite E.
    + intros [= <-]. eapply Hinv; [done..|]. by rewrite E.
    + done.
  - inversion Hw; subst. unfold bind at 1, Heap.get_extras, deref.
    destruct (dicts s !! e) as [ex|]; simpl; [|by intros [= <-]].
    unfold bind, Heap.with_function, bind, deref, finally.
    destruct (builders s !! fn_gen ex) as [fb|]; simpl; [|by intros [= <-]].
    destruct (run_body inv e inner _) as [[] s1|y s1|] eqn:E; simpl.
    + apply IHk; [done|]. eapply traced_within_trace; [reflexivity|].
      eapply (IHi e _ s1); [done| |by rewrite E].
      by eapply traced_within_trace.
    + intros [= <-]. eapply traced_within_trace; [reflexivity|].
      eapply (IHi e _ s1); [done| |by rewrite E].
      by eapply traced_within_trace.
    + done.
  - by intros [= <-].
Qed.

Lemma wrapper_keys n :
  ∀ w c tp e s s',
    w ∈ registry →
    cache_key (decoration w) tp ∈ U →
    traced_within U t0 s →
    outcome (call_wrapper (call_func registry n) w c tp e s) = Some s' →
    traced_within U t0 s'.
Proof.
  induction n as [|n IH]; intros w c tp e s s' Hw HU Ht;
    rewrite call_wrapper_logic.
  all: destruct (dicts s !! e) as [ex|] eqn:He;
    [|rewrite wrapper_dangling_extras; [by intros [= <-]|done]].
  all: destruct (guards s !! recursion_guard ex) as [G|] eqn:Hg;
    [|rewrite (wrapper_dangling_guard _ _ _ _ _ _ ex); [by intros [= <-]|done..]].
  all: destruct (G !! cache_key (decoration w) tp) as [nm|] eqn:Hk;
    [rewrite (wrapper_hit _ _ _ _ _ _ ex G nm); [by intros [= <-]|done..]|].
  all: destruct (reserved_name (decoration w) (cls_name ex) tp) as [x|nm] eqn:Hnm;
    [rewrite (wrapper_name_error _ _ _ _ _ _ ex G x); [by intros [= <-]|done..]|].
  all: rewrite (wrapper_miss _ _ _ _ _ _ ex G nm); [|done..].
  - done.
  - assert (traced_within U t0 (entry_store (decoration w) tp ex nm c s)) as Hentry.
    { destruct Ht as (new & Hn & Hnew). eexists (new ++ [_]).
      unfold entry_store. cbn [trace]. rewrite Hn, <-app_assoc.
      split; [done|]. apply Forall_app. split; [done|]. by repeat constructor. }
    assert (∀ s1, outcome (call_func registry (S n) (func (decoration w))
                             (passed c) tp (length (dicts s))
                             (entry_store (decoration w) tp ex nm c s)) = Some s1 →
                  traced_within U t0
                    (close_scope (decoration w) (length (builders s)) s1)) as Hbody.
    { intros s1 Hs1.
      eapply traced_within_trace;
        [by destruct (close_scope_frame (decoration w) (length (builders s)) s1)
           as (_ & _ & ->)|].
      simpl in Hs1. revert Hs1. apply run_body_keys; [|by apply graph|done].
      intros callee c' tp' e' s2 s3 HU' Ht2.
      destruct (registry !! callee) as [w'|] eqn:Hc; [|by intros [= <-]].
      apply IH; [by eapply list_elem_of_lookup_2|by apply HU'|done]. }
    destruct (call_func registry (S n) _ _ _ _ _) as [[] s1|y s1|]; [| |done].
    + cbn [after_body]. unfold bind.
      destruct (Heap.merge _ _ _) as [[] s2|z s2|] eqn:Em; simpl; [| |done];
        intros [= <-];
        (eapply traced_within_trace; [eapply merge_trace; by rewrite Em|]);
        by apply Hbody.
    + cbn [after_body]. intros [= <-]. by apply Hbody.
Qed.

End Keys.

(** ** Names *)

Lemma reserved_name_default d cn tp :
  fn_name_given d = None →
  reserved_name d cn tp
  = inr (default_fn_name (is_generic d) cn (tp_name_of (func d)) tp).
Proof. intros H. unfold reserved_name. by rewrite H. Qed.

Lemma break_at_append c a rest :
  PyStr.break_at c a = None →
  PyStr.break_at c (a +:+ String c rest) = Some (a, rest).
Proof.
  induction a as [|x a IH]; intros H.
  - change (PyStr.break_at c (String c rest) = Some (EmptyString, rest)).
    simpl. by rewrite Ascii.eqb_refl.
  - change (PyStr.break_at c (String x (a +:+ String c rest))
            = Some (String x a, rest)).
    simpl in *. destruct (Ascii.eqb x c); [done|].
    destruct (PyStr.break_at c a) as [[p q]|]; [done|]. by rewrite IH.
Qed.

(** [tp_name] is what follows the second underscore of the name of the
    decorated function. *)
Lemma tp_name_of_spec f a b t :
  PyStr.break_at "_" a = None →
  PyStr.break_at "_" b = None →
  func_name f = a +:+ "_" +:+ b +:+ "_" +:+ t →
  tp_name_of f = t.
Proof.
  intros Ha Hb Hf. unfold tp_name_of. rewrite Hf.
  change (List.last (PyStr.split "_" 2 (a +:+ String "_" (b +:+ String "_" t)))
            EmptyString = t).
  cbn [PyStr.split]. rewrite break_at_append; [|done].
  by rewrite break_at_append.
Qed.

(** ** What a request reads of the decorated function *)

Lemma run_body_ext (inv inv' : Invoke) :
  (∀ callee c tp e s, inv' callee c tp e s = inv callee c tp e s) →
  ∀ b e s, run_body inv' e b s = run_body inv e b s.
Proof.
  intros Hinv b.
  induction b as [|stmt k IH|callee c tp k IH|proc params inner IHi k IHk|x];
    intros e s; simpl.
  - done.
  - unfold bind. destruct (Heap.get_extras e s) as [ex s1|y s1|]; [|done..].
    destruct (Heap.emit (fn_gen ex) stmt s1) as [[] s2|y s2|]; [|done..].
    apply IH.
  - unfold bind. rewrite Hinv.
    destruct (inv callee c tp e s) as [r s1|y s1|]; [|done..].
    apply IH.
  - unfold bind. destruct (Heap.get_extras e s) as [ex s1|y s1|]; [|done..].
    unfold Heap.with_function, bind, finally.
    destruct (deref (builders s1 !! fn_gen ex) s1) as [fb s2|y s2|]; [|done..].
    rewrite IHi.
    destruct (run_body inv e inner _) as [[] s3|y s3|]; [|done..].
    apply IHk.
  - done.
Qed.

Lemma wrapper_recounted call call' r d tp e c s :
  (∀ c tp e s,
      call' (with_argcount (r (func d)) (func d)) c tp e s
      = call (func d) c tp e s) →
  _wrapper_logic call' (recounted r d) tp e c s
  = _wrapper_logic call d tp e c s.
Proof.
  intros Hcall.
  destruct (dicts s !! e) as [ex|] eqn:He.
  2: { by rewrite !wrapper_dangling_extras. }
  destruct (guards s !! recursion_guard ex) as [G|] eqn:Hg.
  2: { by rewrite !(wrapper_dangling_guard _ _ _ _ _ _ ex). }
  destruct (G !! cache_key d tp) as [nm|] eqn:Hk.
  { by rewrite !(wrapper_hit _ _ _ _ _ _ ex G nm). }
  destruct (reserved_name d (cls_name ex) tp) as [x|nm] eqn:Hn.
  { by rewrite !(wrapper_name_error _ _ _ _ _ _ ex G x). }
  rewrite !(wrapper_miss _ _ _ _ _ _ ex G nm); [|done..].
  change (after_body d tp (fn_gen ex) (length (builders s)) nm
            (call' (with_argcount (r (func d)) (func d)) (passed c) tp
               (length (dicts s)) (entry_store d tp ex nm c s))
          = after_body d tp (fn_gen ex) (length (builders s)) nm
              (call (func d) (passed c) tp (length (dicts s))
                 (entry_store d tp ex nm c s))).
  by rewrite Hcall.
Qed.

Lemma call_func_recounted r registry n :
  ∀ a f c tp e s,
    call_func (recounted_wrapper r <$> registry) n (with_argcount a f) c tp e s
    = call_func registry n f c tp e s.
Proof.
  induction n as [|n IH]; intros a f c tp e s; [done|].
  cbn [call_func].
  change (func_body (with_argcount a f) c tp) with (func_body f c tp).
  apply run_body_ext. intros callee c' tp' e' s'.
  rewrite list_lookup_fmap.
  destruct (registry !! callee) as [[d|d]|]; simpl; [| |done];
    apply wrapper_recounted; intros; apply IH.
Qed.

Lemma compile_recounted r registry n w c tp e s :
  compile (recounted_wrapper r <$> registry) n (recounted_wrapper r w) c tp e s
  = compile registry n w c tp e s.
Proof.
  unfold compile. destruct w as [d|d]; simpl;
    apply wrapper_recounted; intros; apply call_func_recounted.
Qed.

(** ** The claims *)

(** C9: on a cache hit (the guard already holds an entry for the cache key
    of the descriptor) the call is read-only. Whatever the decorated
    function would do, it is not called: the result is the reserved name
    applied to [tp.v()] and the store (guard, builders, extras mappings,
    record of calls) is the one the call started in. *)
Theorem C9_cache_hit_is_read_only
    (call : PyCallable → option ClsCtx → TypeInfo → loc → M unit)
    (w : Wrapper) (c : option ClsCtx) (tp : TypeInfo) (e : loc) (s : Store)
    (ex : Extras) (G : gmap Key string) (nm : string) :
  dicts s !! e = Some ex →
  guards s !! recursion_guard ex = Some G →
  G !! cache_key (decoration w) tp = Some nm →
  call_wrapper call w c tp e s = Ok (nm +:+ "(" +:+ v tp +:+ ")") s.
Proof.
  intros He Hg Hk. rewrite call_wrapper_logic. by eapply wrapper_hit.
Qed.

Lemma C9_cache_hit_is_read_only_witness :
  call_wrapper (call_func Demo.node_registry 0) (wrapper_logic Demo.d_load)
    None (Demo.tp_node "v1['next']") 0 Demo.node_compiled
  = Ok "_load_Node_dataclass_Node(v1['next'])" Demo.node_compiled.
Proof.
  apply (C9_cache_hit_is_read_only (call_func Demo.node_registry 0)
           (wrapper_logic Demo.d_load) None (Demo.tp_node "v1['next']") 0
           Demo.node_compiled Demo.root_extras
           {[KOrigin 1%positive := "_load_Node_dataclass_Node"]}
           "_load_Node_dataclass_Node"); reflexivity.
Defined.

(** C1: a request to the wrapper that returns, returns the string
    [<reserved_name>(<tp.v()>)], the reserved name being the entry of the
    guard for the cache key of the descriptor. During the whole request,
    nested requests included, the decorated functions were called for
    pairwise different keys; and any later request with an equal cache key
    on the same guard, whatever its descriptor, its decorated function and
    its extras mapping, returns a call of the same procedure name and
    leaves the store as it is, so that no decorated function is called
    again for that key. *)
Theorem C1_call_expression_and_single_compilation
    (registry : list Wrapper) (n : nat) (w : Wrapper) (c : option ClsCtx)
    (tp : TypeInfo) (e : loc) (s : Store) (ex : Extras) (r : string)
    (s' : Store) :
  dicts s !! e = Some ex →
  compile registry n w c tp e s = Ok r s' →
  ∃ nm new,
    r = nm +:+ "(" +:+ v tp +:+ ")"
    ∧ guard_at (recursion_guard ex) s' !! cache_key (decoration w) tp = Some nm
    ∧ trace s' = trace s ++ new
    ∧ NoDup (invoked new)
    ∧ ∀ n2 w2 c2 tp2 e2 ex2 s2,
        guard_at (recursion_guard ex) s' ⊆ guard_at (recursion_guard ex) s2 →
        dicts s2 !! e2 = Some ex2 →
        recursion_guard ex2 = recursion_guard ex →
        cache_key (decoration w2) tp2 = cache_key (decoration w) tp →
        compile registry n2 w2 c2 tp2 e2 s2
        = Ok (nm +:+ "(" +:+ v tp2 +:+ ")") s2.
Proof.
  intros He Hr.
  pose proof (compile_evolves registry n w c tp e s ex He) as Hev.
  rewrite Hr in Hev. specialize (Hev s' eq_refl).
  destruct (ev_calls _ _ _ _ Hev) as (new & Ht & Hnd & _).
  unfold compile in Hr. rewrite call_wrapper_logic in Hr.
  apply (wrapper_returns _ _ _ _ _ _ ex) in Hr as (nm & Hnm & ->); [|by intros; apply call_func_evolves|done].
  exists nm, new. repeat split; try done.
  intros n2 w2 c2 tp2 e2 ex2 s2 Hsub He2 Hg2 Hk2.
  eapply lookup_weaken in Hnm; [|done].
  apply guard_at_lookup in Hnm as (G2 & HG2 & Hk).
  unfold compile. rewrite call_wrapper_logic.
  eapply wrapper_hit; [done| by rewrite Hg2 | by rewrite Hk2].
Qed.

Lemma C1_call_expression_and_single_compilation_witness :
  ∃ nm new,
    "_load_Node_dataclass_Node(v1)" = nm +:+ "(" +:+ "v1" +:+ ")"
    ∧ guard_at 0 Demo.node_compiled !! KOrigin 1%positive = Some nm
    ∧ trace Demo.node_compiled = [] ++ new
    ∧ NoDup (invoked new)
    ∧ ∀ n2 w2 c2 tp2 e2 ex2 s2,
        guard_at 0 Demo.node_compiled ⊆ guard_at 0 s2 →
        dicts s2 !! e2 = Some ex2 →
        recursion_guard ex2 = 0 →
        cache_key (decoration w2) tp2 = KOrigin 1%positive →
        compile Demo.node_registry n2 w2 c2 tp2 e2 s2
        = Ok (nm +:+ "(" +:+ v tp2 +:+ ")") s2.
Proof.
  apply (C1_call_expression_and_single_compilation Demo.node_registry 1
           (wrapper_logic Demo.d_load) None (Demo.tp_node "v1") 0 Demo.root
           Demo.root_extras "_load_Node_dataclass_Node(v1)" Demo.node_compiled);
    reflexivity.
Defined.

(** C2: on a cache miss the reserved name is in the guard before the
    decorated function runs. The function is called in the store [entry],
    whose guard already maps the cache key to the reserved name and whose
    extras copy refers to that same guard; from any store whose guard
    extends the one of [entry], a request for the same cache key, by any
    decorated function and any descriptor, returns the reserved name and
    changes nothing, the decorated function not being called; and the
    guard of [entry] is contained in the guard of every store the function
    or the request ends in, as is the guard at the start of any request:
    entries are neither removed nor overwritten. *)
Theorem C2_name_reserved_before_body
    (d : Decoration) (tp : TypeInfo) (e : loc) (c : option ClsCtx)
    (s : Store) (ex : Extras) (G : gmap Key string) (nm : string) :
  dicts s !! e = Some ex →
  guards s !! recursion_guard ex = Some G →
  G !! cache_key d tp = None →
  reserved_name d (cls_name ex) tp = inr nm →
  let g := recursion_guard ex in
  let entry := entry_store d tp ex nm c s in
  let e' := length (dicts s) in
  (∀ call,
      _wrapper_logic call d tp e c s
      = after_body d tp (fn_gen ex) (length (builders s)) nm
          (call (func d) (passed c) tp e' entry))
  ∧ guards entry !! g = Some (<[cache_key d tp := nm]> G)
  ∧ (∃ ex', dicts entry !! e' = Some ex' ∧ recursion_guard ex' = g)
  ∧ (∀ call2 d2 tp2 c2 e2 ex2 s2,
        guard_at g entry ⊆ guard_at g s2 →
        dicts s2 !! e2 = Some ex2 →
        recursion_guard ex2 = g →
        cache_key d2 tp2 = cache_key d tp →
        _wrapper_logic call2 d2 tp2 e2 c2 s2
        = Ok (nm +:+ "(" +:+ v tp2 +:+ ")") s2)
  ∧ (∀ registry n s1,
        outcome (call_func registry n (func d) (passed c) tp e' entry) = Some s1 →
        guard_at g entry ⊆ guard_at g s1)
  ∧ (∀ registry n s',
        outcome (_wrapper_logic (call_func registry n) d tp e c s) = Some s' →
        guard_at g entry ⊆ guard_at g s')
  ∧ (∀ registry n w2 c2 tp2 e2 ex2 s2 s3,
        dicts s2 !! e2 = Some ex2 →
        outcome (compile registry n w2 c2 tp2 e2 s2) = Some s3 →
        guard_at (recursion_guard ex2) s2 ⊆ guard_at (recursion_guard ex2) s3).
Proof.
  intros He Hg Hk Hn g entry e'.
  assert (guards entry !! g = Some (<[cache_key d tp := nm]> G)) as Hentry.
  { pose proof (guard_at_entry d tp ex nm c s G Hg) as H.
    unfold guard_at in H. fold entry g in H.
    destruct (guards entry !! g) as [G'|] eqn:E; simpl in H; [by rewrite H|].
    unfold entry, entry_store in E. cbn [guards] in E.
    apply lookup_ge_None in E. rewrite length_insert in E.
    apply lookup_lt_Some in Hg. unfold g in E. lia. }
  split; [|split; [|split; [|split; [|split; [|split]]]]].
  - intros call. by apply wrapper_miss with G.
  - done.
  - eexists. split; [apply entry_store_extras|done].
  - intros call2 d2 tp2 c2 e2 ex2 s2 Hsub He2 Hg2 Hk2.
    assert (guard_at g s2 !! cache_key d tp = Some nm) as Hin.
    { eapply lookup_weaken; [|done]. by eapply entry_store_guard. }
    apply guard_at_lookup in Hin as (G2 & HG2 & Hin).
    eapply wrapper_hit; [done|by rewrite Hg2|by rewrite Hk2].
  - intros registry n s1 Ho.
    pose proof (call_func_evolves registry n (func d) (passed c) tp e' entry _
                  (entry_store_extras d tp ex nm c s)) as Hev.
    apply (ev_guard _ _ _ _ (Hev s1 Ho)).
  - intros registry n s' Ho.
    unfold guard_at at 1. rewrite Hentry. simpl.
    eapply wrapper_miss_guard; [|done..].
    intros. by apply call_func_evolves.
  - intros registry n w2 c2 tp2 e2 ex2 s2 s3 He2 Ho.
    apply (ev_guard _ _ _ _ (compile_evolves registry n w2 c2 tp2 e2 s2 ex2 He2 s3 Ho)).
Qed.

Lemma C2_name_reserved_before_body_witness :
  let entry :=
    entry_store Demo.d_load (Demo.tp_node "v1") Demo.root_extras
      "_load_Node_dataclass_Node" None Demo.root in
  guards entry !! 0
  = Some (<[KOrigin 1%positive := "_load_Node_dataclass_Node"]> ∅)
  ∧ ∀ call2 d2 tp2 c2 e2 ex2 s2,
      guard_at 0 entry ⊆ guard_at 0 s2 →
      dicts s2 !! e2 = Some ex2 →
      recursion_guard ex2 = 0 →
      cache_key d2 tp2 = KOrigin 1%positive →
      _wrapper_logic call2 d2 tp2 e2 c2 s2
      = Ok ("_load_Node_dataclass_Node" +:+ "(" +:+ v tp2 +:+ ")") s2.
Proof.
  pose proof (C2_name_reserved_before_body Demo.d_load (Demo.tp_node "v1") 0
                None Demo.root Demo.root_extras ∅ "_load_Node_dataclass_Node"
                eq_refl eq_refl eq_refl eq_refl) as (_ & H2 & _ & H4 & _).
  split; [exact H2 | exact H4].
Defined.



Example node_compiles_once :
  compile Demo.node_registry 1 (wrapper_logic Demo.d_load) None
    (Demo.tp_node "v1") 0 Demo.root
  = Ok "_load_Node_dataclass_Node(v1)" Demo.node_compiled
  ∧ invoked (trace Demo.node_compiled) = [KOrigin 1%positive]
  ∧ (functions <$> builders Demo.node_compiled !! 0)
    = Some [("_load_Node_dataclass_Node",
             {| proc_params := ["v1"]; proc_default := MISSING;
                proc_body := ["value = v1['value']";
                              "next = _load_Node_dataclass_Node(v1['next'])"];
                proc_locals := 1 |})].
Proof. repeat split. Qed.

(** C4, counterexample to the claim as stated: a class whose declared
    name is the numeral of its positional index gets the same procedure
    name as a plain field and as a generic argument. *)
Lemma C4_class_named_like_its_index :
  cache_key Demo.d_load Demo.tp_two ≠ cache_key Demo.d_generic Demo.tp_two
  ∧ reserved_name Demo.d_load "Record" Demo.tp_two = inr "_load_Record_dataclass_2"
  ∧ reserved_name Demo.d_generic "Record" Demo.tp_two = inr "_load_Record_dataclass_2".
Proof. repeat split. discriminate. Qed.

(** C4, amended: when no [fn_name] is supplied, the reserved name is
    [_load_<cls_name>_<tp_name>_<tp.field_i>] in generic mode and
    [_load_<cls_name>_<tp_name>_<tp.name>] otherwise, [tp_name] being what
    follows the second underscore of the name of the decorated function;
    this is the name a request that misses leaves in the guard. The two
    modes use different cache keys, and for decorated functions with the
    same [tp_name] the two names of a class differ exactly when its
    declared name is not the decimal numeral of the positional index. *)
Theorem C4_default_name_template
    (dp dg : Decoration) (cn : string) (tp tq : TypeInfo) :
  fn_name_given dp = None →
  fn_name_given dg = None →
  is_generic dp = false →
  is_generic dg = true →
  let plain :=
    "_load_" +:+ cn +:+ "_" +:+ tp_name_of (func dp) +:+ "_" +:+ name tp in
  let generic :=
    "_load_" +:+ cn +:+ "_" +:+ tp_name_of (func dg) +:+ "_"
      +:+ pretty (field_i tq) in
  reserved_name dp cn tp = inr plain
  ∧ reserved_name dg cn tq = inr generic
  ∧ cache_key dp tp ≠ cache_key dg tq
  ∧ (tp_name_of (func dp) = tp_name_of (func dg) →
     (plain = generic ↔ name tp = pretty (field_i tq)))
  ∧ (∀ registry n e c s ex G s',
        cls_name ex = cn →
        dicts s !! e = Some ex →
        guards s !! recursion_guard ex = Some G →
        G !! cache_key dp tp = None →
        outcome (_wrapper_logic (call_func registry n) dp tp e c s) = Some s' →
        guard_at (recursion_guard ex) s' !! cache_key dp tp = Some plain)
  ∧ (∀ registry n e c s ex G s',
        cls_name ex = cn →
        dicts s !! e = Some ex →
        guards s !! recursion_guard ex = Some G →
        G !! cache_key dg tq = None →
        outcome (_wrapper_logic (call_func registry n) dg tq e c s) = Some s' →
        guard_at (recursion_guard ex) s' !! cache_key dg tq = Some generic).
Proof.
  intros Hp Hg Hmp Hmg plain generic.
  assert (reserved_name dp cn tp = inr plain) as Hnp.
  { rewrite reserved_name_default; [|done]. by rewrite Hmp. }
  assert (reserved_name dg cn tq = inr generic) as Hng.
  { rewrite reserved_name_default; [|done]. by rewrite Hmg. }
  split; [done|]. split; [done|]. split; [|split; [|split]].
  - unfold cache_key. by rewrite Hmp, Hmg.
  - intros Htok. unfold plain, generic. rewrite Htok. split.
    + intros H. by do 5 apply append_inv_head in H.
    + by intros ->.
  - intros registry n e c s ex G s' <- He HG Hk Ho.
    by eapply wrapper_reserves.
  - intros registry n e c s ex G s' <- He HG Hk Ho.
    by eapply wrapper_reserves.
Qed.

Lemma C4_default_name_template_witness :
  reserved_name Demo.d_load "Node" (Demo.tp_node "v1")
  = inr "_load_Node_dataclass_Node"
  ∧ reserved_name Demo.d_generic "Node" (Demo.tp_node "v1")
    = inr "_load_Node_dataclass_0"
  ∧ cache_key Demo.d_load (Demo.tp_node "v1")
    ≠ cache_key Demo.d_generic (Demo.tp_node "v1").
Proof.
  pose proof (C4_default_name_template Demo.d_load Demo.d_generic "Node"
                (Demo.tp_node "v1") (Demo.tp_node "v1")
                eq_refl eq_refl eq_refl eq_refl) as (H1 & H2 & H3 & _).
  split; [exact H1|]. split; [exact H2 | exact H3].
Defined.

(** C5, counterexample to the claim as stated: a loader and a dumper,
    two different functions, get the same procedure name for the same
    field of the same record. *)
Lemma C5_loader_and_dumper_collide :
  func_name Demo.load_to_dataclass ≠ func_name Demo.dump_to_dataclass
  ∧ reserved_name Demo.d_load "Node" (Demo.tp_node "v1")
    = inr "_load_Node_dataclass_Node"
  ∧ reserved_name Demo.d_dump "Node" (Demo.tp_node "v1")
    = inr "_load_Node_dataclass_Node".
Proof. repeat split. discriminate. Qed.

(** C5, amended: the reserved name always starts with [_load_]; the only
    part of it that comes from the decorated function is [tp_name], what
    follows the second underscore of the name of the function (the whole
    name, or what follows its only underscore, when it has fewer). For the
    same field of the same record, in the same mode and with no [fn_name],
    two decorated functions get the same procedure name exactly when
    their [tp_name]s are equal. *)
Theorem C5_role_token
    (d1 d2 : Decoration) (cn : string) (tp : TypeInfo) :
  fn_name_given d1 = None →
  fn_name_given d2 = None →
  is_generic d1 = is_generic d2 →
  (reserved_name d1 cn tp = reserved_name d2 cn tp
   ↔ tp_name_of (func d1) = tp_name_of (func d2))
  ∧ (∃ rest, reserved_name d1 cn tp
             = inr ("_load_" +:+ cn +:+ "_" +:+ tp_name_of (func d1) +:+ rest))
  ∧ (∀ a b t,
        PyStr.break_at "_" a = None →
        PyStr.break_at "_" b = None →
        func_name (func d1) = a +:+ "_" +:+ b +:+ "_" +:+ t →
        tp_name_of (func d1) = t).
Proof.
  intros H1 H2 Hm.
  rewrite !reserved_name_default; [|done..]. rewrite <-Hm.
  split; [|split].
  - split.
    + intros [= H]. unfold default_fn_name in H.
      destruct (is_generic d1).
      * do 3 apply append_inv_head in H. by apply append_inv_tail in H.
      * do 3 apply append_inv_head in H. by apply append_inv_tail in H.
    + by intros ->.
  - unfold default_fn_name. destruct (is_generic d1); eauto.
  - intros a b t Ha Hb Hf. by apply (tp_name_of_spec _ a b t).
Qed.

Lemma C5_role_token_witness :
  reserved_name Demo.d_load "Node" (Demo.tp_node "v1")
  = reserved_name Demo.d_unsupported "Node" (Demo.tp_node "v1")
  ↔ tp_name_of Demo.load_to_dataclass = tp_name_of Demo.load_to_unsupported.
Proof.
  exact (proj1 (C5_role_token Demo.d_load Demo.d_unsupported "Node"
                  (Demo.tp_node "v1") eq_refl eq_refl eq_refl)).
Defined.

(** C7, counterexample to the claim as stated: for a callable whose
    parameter count cannot be read, decoration fails with
    [AttributeError], not with [AmbiguousClassContextError]. *)
Lemma C7_no_code_object :
  setup_recursive_safe_function (Some Demo.partial_loader) None false
  = SetupRaises (AttributeError "__code__")
  ∧ AttributeError "__code__" ≠ AmbiguousClassContextError.
Proof. split; [reflexivity | discriminate]. Qed.

(** C7, amended: decoration never fails with
    [AmbiguousClassContextError]. A function with a code object is always
    classified, method-shaped exactly when its declared positional
    parameter count is 3 and plain otherwise, and decoration returns the
    closure of that shape; a callable without a code object makes
    decoration fail with [AttributeError]. The classification is part of
    decoration only. A call of either closure runs [_wrapper_logic] with
    the arguments it was given, and no request reads a parameter count:
    whatever the decorated functions of a program report as their
    parameter count once the closures exist, every request, nested
    requests included, has the same result in the same store. *)
Theorem C7_classified_once_at_decoration
    (f : PyCallable) (fmt : option PyStr.FormatString) (generic : bool) :
  let d := {| func := f; fn_name := fmt; is_generic := generic |} in
  setup_recursive_safe_function (Some f) fmt generic
  ≠ SetupRaises AmbiguousClassContextError
  ∧ setup_recursive_safe_function (Some f) fmt generic
    = match co_argcount f with
      | Some 3 => Decorated (wrapper_class_method d)
      | Some _ => Decorated (wrapper_logic d)
      | None => SetupRaises (AttributeError "__code__")
      end
  ∧ (∀ w call c tp e,
        setup_recursive_safe_function (Some f) fmt generic = Decorated w →
        call_wrapper call w c tp e = _wrapper_logic call d tp e c)
  ∧ (∀ (r : PyCallable → option nat) registry n w c tp e s,
        compile (recounted_wrapper r <$> registry) n (recounted_wrapper r w)
          c tp e s
        = compile registry n w c tp e s)
  ∧ (∀ call a tp e c s,
        (∀ g c tp e s, call (with_argcount a g) c tp e s = call g c tp e s) →
        _wrapper_logic call
          {| func := with_argcount a f; fn_name := fmt; is_generic := generic |}
          tp e c s
        = _wrapper_logic call d tp e c s).
Proof.
  intros d.
  assert (setup_recursive_safe_function (Some f) fmt generic
          = match co_argcount f with
            | Some 3 => Decorated (wrapper_class_method d)
            | Some _ => Decorated (wrapper_logic d)
            | None => SetupRaises (AttributeError "__code__")
            end) as Hs.
  { unfold setup_recursive_safe_function, decorate.
    destruct (co_argcount f) as [[|[|[|[|k]]]]|]; reflexivity. }
  split; [|split; [done|split; [|split]]].
  - rewrite Hs. destruct (co_argcount f) as [[|[|[|[|k]]]]|]; discriminate.
  - intros w call c tp e. rewrite Hs.
    destruct (co_argcount f) as [[|[|[|[|k]]]]|]; intros [= <-]; reflexivity.
  - intros r registry n w c tp e s. apply compile_recounted.
  - intros call a tp e c s Hcall.
    apply (wrapper_recounted call call (λ _, a) d). intros. apply Hcall.
Qed.

(** C10, the case the code misses: a function with three declared
    parameters is decorated into [wrapper_class_method], but when the
    class context it is given has a false truth value the function is
    called as [func(tp, extras)], with no class context, and the request
    fails with [TypeError]. *)
Theorem C10_falsy_class_context :
  setup_recursive_safe_function (Some Demo.load_to_model) None false
  = Decorated (wrapper_class_method Demo.d_model)
  ∧ compile [wrapper_class_method Demo.d_model] 1
      (wrapper_class_method Demo.d_model) (Some Demo.empty_ctx)
      (Demo.tp_node "v1") 0 Demo.root
    = Raise TypeError (Demo.store_of (Demo.model_with Demo.empty_ctx))
  ∧ inv_cls <$> trace (Demo.store_of (Demo.model_with Demo.empty_ctx)) = [None].
Proof. repeat split. Qed.

(** With a class context whose truth value is true, the context is
    forwarded, and a plain function is called without one. *)
Lemma class_context_forwarded call d tp e c s ex G nm :
  dicts s !! e = Some ex →
  guards s !! recursion_guard ex = Some G →
  G !! cache_key d tp = None →
  reserved_name d (cls_name ex) tp = inr nm →
  is_truthy c = true →
  _wrapper_logic call d tp e c s
  = after_body d tp (fn_gen ex) (length (builders s)) nm
      (call (func d) c tp (length (dicts s)) (entry_store d tp ex nm c s)).
Proof.
  intros He Hg Hk Hn Hc.
  rewrite (wrapper_miss _ _ _ _ _ _ ex G nm); [|done..].
  unfold passed. by rewrite Hc.
Qed.

Example truthy_class_context_is_passed :
  compile [wrapper_class_method Demo.d_model] 1
    (wrapper_class_method Demo.d_model) (Some Demo.some_ctx)
    (Demo.tp_node "v1") 0 Demo.root
  = Ok "_load_Node_model_Node(v1)" (Demo.store_of (Demo.model_with Demo.some_ctx))
  ∧ inv_cls <$> trace (Demo.store_of (Demo.model_with Demo.some_ctx))
    = [Some Demo.some_ctx].
Proof. repeat split. Qed.

(** C8: an exception raised by the decorated function during a cache-miss
    compilation leaves the request as that same exception, uncaught (only
    the scope the wrapper opened is left on the way); and whenever a
    request ends in an exception, the builder of the caller is exactly as
    it was before the request, with no definition of the nested builder
    merged into it, and the extras mapping of the caller is unchanged. *)
Theorem C8_failure_is_not_merged
    (registry : list Wrapper) (n : nat) (d : Decoration) (tp : TypeInfo)
    (e : loc) (c : option ClsCtx) (s : Store) (ex : Extras) :
  dicts s !! e = Some ex →
  is_Some (builders s !! fn_gen ex) →
  (∀ G nm x s1,
      guards s !! recursion_guard ex = Some G →
      G !! cache_key d tp = None →
      reserved_name d (cls_name ex) tp = inr nm →
      call_func registry n (func d) (passed c) tp (length (dicts s))
        (entry_store d tp ex nm c s) = Raise x s1 →
      _wrapper_logic (call_func registry n) d tp e c s
      = Raise x (close_scope d (length (builders s)) s1))
  ∧ (∀ x s',
        _wrapper_logic (call_func registry n) d tp e c s = Raise x s' →
        builders s' !! fn_gen ex = builders s !! fn_gen ex
        ∧ dicts s' !! e = Some ex).
Proof.
  intros He Hm. split.
  - intros G nm x s1 Hg Hk Hn Hr.
    rewrite (wrapper_miss _ _ _ _ _ _ ex G nm); [|done..]. by rewrite Hr.
  - intros x s' Hr.
    destruct (guards s !! recursion_guard ex) as [G|] eqn:Hg.
    2: { rewrite (wrapper_dangling_guard _ _ _ _ _ _ ex) in Hr; [|done..].
         by injection Hr as _ <-. }
    destruct (G !! cache_key d tp) as [nm|] eqn:Hk.
    { by rewrite (wrapper_hit _ _ _ _ _ _ ex G nm) in Hr. }
    destruct (reserved_name d (cls_name ex) tp) as [y|nm] eqn:Hn.
    { rewrite (wrapper_name_error _ _ _ _ _ _ ex G y) in Hr; [|done..].
      by injection Hr as _ <-. }
    rewrite (wrapper_miss _ _ _ _ _ _ ex G nm) in Hr; [|done..].
    apply after_body_raise in Hr as (s1 & -> & Hr).
    assert (evolves (recursion_guard ex) (length (builders s))
              (entry_store d tp ex nm c s) s1) as Hev.
    { apply (call_func_evolves registry n (func d) (passed c) tp
               (length (dicts s)) (entry_store d tp ex nm c s) _
               (entry_store_extras d tp ex nm c s)).
      by destruct Hr as [-> | ->]. }
    split; [by apply (parent_builder_until_merge d tp ex nm c)|].
    destruct (close_scope_frame d (length (builders s)) s1) as (-> & _ & _).
    eapply prefix_lookup_Some; [|apply (ev_dicts _ _ _ _ Hev)].
    unfold entry_store. cbn [dicts]. by apply lookup_app_l_Some.
Qed.

Lemma C8_failure_is_not_merged_witness :
  _wrapper_logic (call_func [wrapper_logic Demo.d_unsupported] 1)
    Demo.d_unsupported (Demo.tp_node "v1") 0 None Demo.root
  = Raise (Failure "unsupported type")
      (close_scope Demo.d_unsupported 1
         (Demo.store_of
            (call_func [wrapper_logic Demo.d_unsupported] 1
               Demo.load_to_unsupported None (Demo.tp_node "v1") 1
               (entry_store Demo.d_unsupported (Demo.tp_node "v1")
                  Demo.root_extras "_load_Node_unsupported_Node" None
                  Demo.root)))).
Proof.
  apply (proj1 (C8_failure_is_not_merged [wrapper_logic Demo.d_unsupported] 1
                  Demo.d_unsupported (Demo.tp_node "v1") 0 None Demo.root
                  Demo.root_extras eq_refl (mk_is_Some _ _ eq_refl))
           ∅ "_load_Node_unsupported_Node");
    reflexivity.
Defined.

Example failed_compile_leaves_root_builder :
  builders
    (Demo.store_of
       (compile [wrapper_logic Demo.d_unsupported] 1
          (wrapper_logic Demo.d_unsupported) None (Demo.tp_node "v1") 0
          Demo.root)) !! 0
  = Some FB.empty.
Proof. reflexivity. Qed.

(** C6: when a cache miss leads to a nested compilation that returns, the
    decorated function was handed a new extras mapping [e'], a copy of
    the caller's in which ['fn_gen'] is a new builder, without any
    definition when the function starts, and ['locals'] a new mapping
    holding the cache key (the concrete type [tp.origin], or [tp.args] in
    generic mode) under ['cls'], while ['recursion_guard'] is the caller's
    own guard, so that every key entered during the nested compilation has
    its entry in the guard the caller sees. At the end the builder of the
    caller holds its former definitions followed by those of the nested
    builder, and the extras mapping of the caller is what it was. *)
Theorem C6_nested_build_context
    (registry : list Wrapper) (n : nat) (d : Decoration) (tp : TypeInfo)
    (e : loc) (c : option ClsCtx) (s : Store) (ex : Extras)
    (G : gmap Key string) (r : string) (s' : Store) :
  dicts s !! e = Some ex →
  guards s !! recursion_guard ex = Some G →
  G !! cache_key d tp = None →
  is_Some (builders s !! fn_gen ex) →
  _wrapper_logic (call_func registry n) d tp e c s = Ok r s' →
  let e' := length (dicts s) in
  let nb := length (builders s) in
  let l := length (scopes s) in
  (dicts s !! e' = None ∧ builders s !! nb = None ∧ scopes s !! l = None)
  ∧ (∃ nm,
        let entry := entry_store d tp ex nm c s in
        _wrapper_logic (call_func registry n) d tp e c s
        = after_body d tp (fn_gen ex) nb nm
            (call_func registry n (func d) (passed c) tp e' entry)
        ∧ dicts entry !! e'
          = Some {| recursion_guard := recursion_guard ex;
                    cls_name := cls_name ex; fn_gen := nb; locals := l |}
        ∧ FB.defined <$> builders entry !! nb = Some []
        ∧ scopes entry !! l = Some {["cls" := cache_key d tp]})
  ∧ dicts s' !! e'
    = Some {| recursion_guard := recursion_guard ex; cls_name := cls_name ex;
              fn_gen := nb; locals := l |}
  ∧ scopes s' !! l = Some {["cls" := cache_key d tp]}
  ∧ (∃ i rest,
        trace s' = trace s ++ i :: rest
        ∧ inv_extras i = e'
        ∧ inv_key i = cache_key d tp
        ∧ inv_guard i = recursion_guard ex
        ∧ ∀ k, k ∈ invoked (i :: rest) →
               is_Some (guard_at (recursion_guard ex) s' !! k))
  ∧ (∃ fm fn,
        builders s !! fn_gen ex = Some fm
        ∧ builders s' !! nb = Some fn
        ∧ builders s' !! fn_gen ex
          = Some {| functions := functions fm ++ functions fn;
                    open_scopes := open_scopes fm |})
  ∧ dicts s' !! e = Some ex.
Proof.
  intros He Hg Hk Hmain Hr. cbv zeta.
  pose proof (wrapper_evolves (call_func registry n)
                (λ f c tp e s ex, call_func_evolves registry n f c tp e s ex)
                d tp e c s ex He) as Hwhole.
  rewrite Hr in Hwhole. specialize (Hwhole s' eq_refl).
  destruct (reserved_name d (cls_name ex) tp) as [y|nm] eqn:Hn.
  { by rewrite (wrapper_name_error _ _ _ _ _ _ ex G y) in Hr. }
  rewrite (wrapper_miss _ _ _ _ _ _ ex G nm) in Hr; [|done..].
  apply after_body_ok in Hr as (-> & s1 & Hs1 & Hmerge).
  assert (evolves (recursion_guard ex) (length (builders s)) (entry_store d tp ex nm c s) s1) as Hev.
  { apply (call_func_evolves registry n (func d) (passed c) tp (length (dicts s))
             (entry_store d tp ex nm c s) _ (entry_store_extras d tp ex nm c s)).
    by rewrite Hs1. }
  pose proof (parent_builder_until_merge d tp ex nm c s s1 Hmain Hev) as Hparent.
  apply merge_ok in Hmerge as (fm & fo & Hfm & Hfo & _ & ->).
  destruct (close_scope_frame d (length (builders s)) s1) as (Hd & Hl & Ht).
  cbn [dicts scopes trace builders Heap.set_builders]. rewrite Hd, Hl, Ht.
  assert (fn_gen ex < (length (builders s))) as Hlt by (by apply lookup_lt_is_Some in Hmain).
  split; [|split; [|split; [|split; [|split; [|split]]]]].
  - repeat split; by apply lookup_ge_None.
  - exists nm. cbv zeta. split; [|split; [|split]].
    + rewrite (wrapper_miss _ _ _ _ _ _ ex G nm); [|done..]. by rewrite Hs1.
    + apply entry_store_extras.
    + unfold entry_store. cbn [builders]. rewrite lookup_end.
      by destruct (fn_name_given d).
    + unfold entry_store. cbn [scopes]. apply lookup_end.
  - eapply prefix_lookup_Some; [|apply (ev_dicts _ _ _ _ Hev)].
    apply entry_store_extras.
  - eapply prefix_lookup_Some; [|apply (ev_scopes _ _ _ _ Hev)].
    unfold entry_store. cbn [scopes]. apply lookup_end.
  - destruct (ev_calls _ _ _ _ Hev) as (new & Hnew & _).
    destruct (ev_calls _ _ _ _ Hwhole) as (all & Hall & _ & _ & _ & Hdom).
    cbn [trace Heap.set_builders] in Hall. rewrite Ht in Hall.
    exists {| inv_guard := recursion_guard ex; inv_key := cache_key d tp;
              inv_func := func_name (func d); inv_cls := passed c;
              inv_extras := (length (dicts s)) |}, new.
    assert (trace s1 = trace s ++ {| inv_guard := recursion_guard ex;
                                     inv_key := cache_key d tp;
                                     inv_func := func_name (func d);
                                     inv_cls := passed c;
                                     inv_extras := (length (dicts s)) |} :: new) as Htr.
    { rewrite Hnew. unfold entry_store. cbn [trace]. by rewrite <-app_assoc. }
    repeat split; try done.
    intros k Hin. apply elem_of_dom. rewrite Hdom.
    rewrite Htr in Hall. apply app_inv_head in Hall as <-. set_solver.
  - exists fm, fo. rewrite Hparent in Hfm. split; [done|]. split.
    + rewrite list_lookup_insert_ne; [done|lia].
    + rewrite list_lookup_insert_eq; [done|].
      apply lookup_lt_is_Some. exists fm. by etrans.
  - eapply prefix_lookup_Some; [|apply (ev_dicts _ _ _ _ Hev)].
    unfold entry_store. cbn [dicts]. by apply lookup_app_l_Some.
Qed.

Lemma C6_nested_build_context_witness :
  dicts Demo.node_compiled !! 1
  = Some {| recursion_guard := 0; cls_name := "Node"; fn_gen := 1; locals := 1 |}
  ∧ scopes Demo.node_compiled !! 1 = Some {["cls" := KOrigin 1%positive]}
  ∧ dicts Demo.node_compiled !! 0 = Some Demo.root_extras.
Proof.
  pose proof (C6_nested_build_context Demo.node_registry 1 Demo.d_load
                (Demo.tp_node "v1") 0 None Demo.root Demo.root_extras ∅
                "_load_Node_dataclass_Node(v1)" Demo.node_compiled
                eq_refl eq_refl eq_refl (mk_is_Some _ _ eq_refl) eq_refl)
    as (_ & _ & H2 & H3 & _ & _ & H6).
  split; [exact H2|]. split; [exact H3 | exact H6].
Defined.

(** ** Beyond the claims: what a request leaves alone *)

(** X1: a request writes to one guard and one builder of the store it
    starts in. Every other guard, every builder but the one of the caller,
    every extras mapping and every locals mapping is after the request,
    whether it returns or raises, what it was before; no guard is created. *)
Theorem request_frame
    (registry : list Wrapper) (n : nat) (w : Wrapper) (c : option ClsCtx)
    (tp : TypeInfo) (e : loc) (s : Store) (ex : Extras) (s' : Store) :
  dicts s !! e = Some ex →
  outcome (compile registry n w c tp e s) = Some s' →
  length (guards s') = length (guards s)
  ∧ (∀ g, g ≠ recursion_guard ex → guards s' !! g = guards s !! g)
  ∧ (∀ b fb, b ≠ fn_gen ex →
             builders s !! b = Some fb → builders s' !! b = Some fb)
  ∧ (∀ e0 ex0, dicts s !! e0 = Some ex0 → dicts s' !! e0 = Some ex0)
  ∧ (∀ l m, scopes s !! l = Some m → scopes s' !! l = Some m).
Proof.
  intros He Ho.
  pose proof (compile_evolves registry n w c tp e s ex He s' Ho) as Hev.
  split; [apply (ev_guards_len _ _ _ _ Hev)|].
  split; [apply (ev_guards_other _ _ _ _ Hev)|].
  split; [|split].
  - intros b fb Hb Hfb. rewrite (ev_builders_other _ _ _ _ Hev); [done| |done].
    by eapply lookup_lt_Some.
  - intros e0 ex0 H0. eapply prefix_lookup_Some; [done|apply (ev_dicts _ _ _ _ Hev)].
  - intros l m H0. eapply prefix_lookup_Some; [done|apply (ev_scopes _ _ _ _ Hev)].
Qed.

Lemma request_frame_witness :
  length (guards Demo.node_compiled) = 1
  ∧ ∀ e0 ex0, dicts Demo.root !! e0 = Some ex0 →
              dicts Demo.node_compiled !! e0 = Some ex0.
Proof.
  pose proof (request_frame Demo.node_registry 1 (wrapper_logic Demo.d_load)
                None (Demo.tp_node "v1") 0 Demo.root Demo.root_extras
                Demo.node_compiled eq_refl eq_refl) as (H1 & _ & _ & H4 & _).
  split; [exact H1 | exact H4].
Defined.

Lemma wrapper_raise_parent registry n d tp e c s ex x s' :
  dicts s !! e = Some ex →
  is_Some (builders s !! fn_gen ex) →
  _wrapper_logic (call_func registry n) d tp e c s = Raise x s' →
  builders s' !! fn_gen ex = builders s !! fn_gen ex.
Proof.
  intros He Hm Hr.
  destruct (guards s !! recursion_guard ex) as [G|] eqn:Hg.
  2: { rewrite (wrapper_dangling_guard _ _ _ _ _ _ ex) in Hr; [|done..].
       by injection Hr as _ <-. }
  destruct (G !! cache_key d tp) as [nm|] eqn:Hk.
  { by rewrite (wrapper_hit _ _ _ _ _ _ ex G nm) in Hr. }
  destruct (reserved_name d (cls_name ex) tp) as [y|nm] eqn:Hn.
  { rewrite (wrapper_name_error _ _ _ _ _ _ ex G y) in Hr; [|done..].
    by injection Hr as _ <-. }
  rewrite (wrapper_miss _ _ _ _ _ _ ex G nm) in Hr; [|done..].
  apply after_body_raise in Hr as (s1 & -> & Hr).
  apply (parent_builder_until_merge d tp ex nm c); [done|].
  apply (call_func_evolves registry n (func d) (passed c) tp
           (length (dicts s)) (entry_store d tp ex nm c s) _
           (entry_store_extras d tp ex nm c s)).
  by destruct Hr as [-> | ->].
Qed.

(** X2: a cache miss that ends in an exception keeps its reservation.
    The guard holds the reserved name for the key although the builder of
    the caller has gained nothing, and a later request for the same key
    on the same extras returns a call of that name without running the
    decorated function. *)
Theorem failed_compile_keeps_reservation
    (registry : list Wrapper) (n : nat) (d : Decoration) (tp : TypeInfo)
    (e : loc) (c : option ClsCtx) (s : Store) (ex : Extras)
    (G : gmap Key string) (nm : string) (x : Exn) (s' : Store) :
  dicts s !! e = Some ex →
  guards s !! recursion_guard ex = Some G →
  G !! cache_key d tp = None →
  reserved_name d (cls_name ex) tp = inr nm →
  is_Some (builders s !! fn_gen ex) →
  _wrapper_logic (call_func registry n) d tp e c s = Raise x s' →
  guard_at (recursion_guard ex) s' !! cache_key d tp = Some nm
  ∧ builders s' !! fn_gen ex = builders s !! fn_gen ex
  ∧ ∀ call2 d2 tp2 c2,
      cache_key d2 tp2 = cache_key d tp →
      _wrapper_logic call2 d2 tp2 e c2 s'
      = Ok (nm +:+ "(" +:+ v tp2 +:+ ")") s'.
Proof.
  intros He Hg Hk Hn Hm Hr.
  assert (guard_at (recursion_guard ex) s' !! cache_key d tp = Some nm) as Hin.
  { eapply (wrapper_reserves registry n); [done..|]. by rewrite Hr. }
  split; [done|]. split; [by eapply wrapper_raise_parent|].
  intros call2 d2 tp2 c2 Hk2.
  pose proof (wrapper_evolves (call_func registry n)
                (λ f c tp e s ex, call_func_evolves registry n f c tp e s ex)
                d tp e c s ex He) as Hev.
  rewrite Hr in Hev. specialize (Hev s' eq_refl).
  apply guard_at_lookup in Hin as (G' & HG' & Hin).
  eapply wrapper_hit; [by eapply evolves_extras|done|by rewrite Hk2].
Qed.

Lemma failed_compile_keeps_reservation_witness :
  let s' :=
    Demo.store_of
      (_wrapper_logic (call_func [wrapper_logic Demo.d_unsupported] 1)
         Demo.d_unsupported (Demo.tp_node "v1") 0 None Demo.root) in
  guard_at 0 s' !! KOrigin 1%positive = Some "_load_Node_unsupported_Node"
  ∧ builders s' !! 0 = Some FB.empty.
Proof.
  pose proof (failed_compile_keeps_reservation
                [wrapper_logic Demo.d_unsupported] 1 Demo.d_unsupported
                (Demo.tp_node "v1") 0 None Demo.root Demo.root_extras ∅
                "_load_Node_unsupported_Node" (Failure "unsupported type")
                (Demo.store_of
                   (_wrapper_logic (call_func [wrapper_logic Demo.d_unsupported] 1)
                      Demo.d_unsupported (Demo.tp_node "v1") 0 None Demo.root))
                eq_refl eq_refl eq_refl eq_refl (mk_is_Some _ _ eq_refl) eq_refl)
    as (H1 & H2 & _).
  split; [exact H1 | exact H2].
Defined.

(** ** Beyond the claims: names *)

(** X3: for one decorated function and one record, the default template
    gives two descriptors the same procedure name exactly when their
    positional indexes are equal (generic mode) or their declared names
    are equal (otherwise), whatever their cache keys; and for one
    descriptor it gives two records the same name only if their display
    names are equal. *)
Theorem default_names_injective
    (d : Decoration) (cn : string) (tp1 tp2 : TypeInfo) :
  fn_name_given d = None →
  (reserved_name d cn tp1 = reserved_name d cn tp2
   ↔ if is_generic d then field_i tp1 = field_i tp2 else name tp1 = name tp2)
  ∧ (∀ cn2, reserved_name d cn tp1 = reserved_name d cn2 tp1 → cn = cn2).
Proof.
  intros Hd. rewrite !reserved_name_default; [|done..]. split.
  - unfold default_fn_name. destruct (is_generic d); split.
    + intros [= H]. do 5 apply append_inv_head in H. by apply (inj pretty) in H.
    + by intros ->.
    + intros [= H]. by do 5 apply append_inv_head in H.
    + by intros ->.
  - intros cn2. rewrite reserved_name_default; [|done].
    unfold default_fn_name. intros [= H].
    destruct (is_generic d); apply append_inv_head in H;
      by apply append_inv_tail in H.
Qed.

Lemma default_names_injective_witness :
  reserved_name Demo.d_generic "Pair" Demo.tp_two
  = reserved_name Demo.d_generic "Pair" (Demo.tp_node "v1")
  ↔ field_i Demo.tp_two = field_i (Demo.tp_node "v1").
Proof.
  exact (proj1 (default_names_injective Demo.d_generic "Pair" Demo.tp_two
                  (Demo.tp_node "v1") eq_refl)).
Defined.

Lemma string_append_assoc (a b c : string) :
  (a +:+ b) +:+ c = a +:+ (b +:+ c).
Proof.
  induction a as [|x a IH]; [done|].
  change (String x ((a +:+ b) +:+ c) = String x (a +:+ (b +:+ c))).
  by rewrite IH.
Qed.

Lemma break_at_Some c text p q :
  PyStr.break_at c text = Some (p, q) → text = p +:+ String c q.
Proof.
  revert p. induction text as [|x text IH]; intros p; simpl; [done|].
  destruct (Ascii.eqb x c) eqn:E.
  - intros [= <- <-]. by apply Ascii.eqb_eq in E as ->.
  - destruct (PyStr.break_at c text) as [[p' q']|]; [|done].
    intros [= <- <-]. change (String x text = String x (p' +:+ String c q')).
    f_equal. by apply IH.
Qed.

(** X4: [tp_name], the part of the procedure name taken from the
    decorated function, is what follows the second underscore of the
    function's name, what follows its only underscore when it has one, and
    the whole name when it has none; in every case the function's name
    ends with it. *)
Theorem tp_name_by_underscores (f : PyCallable) :
  (no_underscore (func_name f) → tp_name_of f = func_name f)
  ∧ (∀ a b, no_underscore a → no_underscore b →
            func_name f = a +:+ "_" +:+ b → tp_name_of f = b)
  ∧ (∀ a b t, no_underscore a → no_underscore b →
              func_name f = a +:+ "_" +:+ b +:+ "_" +:+ t → tp_name_of f = t)
  ∧ ∃ p, func_name f = p +:+ tp_name_of f.
Proof.
  unfold no_underscore, tp_name_of. split; [|split; [|split]].
  - intros H. cbn [PyStr.split]. by rewrite H.
  - intros a b Ha Hb ->.
    change (List.last (PyStr.split "_" 2 (a +:+ String "_" b)) EmptyString = b).
    cbn [PyStr.split]. rewrite break_at_append; [|done]. by rewrite Hb.
  - intros a b t Ha Hb Hf. by apply (tp_name_of_spec f a b t).
  - cbn [PyStr.split].
    destruct (PyStr.break_at "_" (func_name f)) as [[a r]|] eqn:E1.
    + apply break_at_Some in E1.
      destruct (PyStr.break_at "_" r) as [[b t]|] eqn:E2.
      * apply break_at_Some in E2. exists (a +:+ "_" +:+ b +:+ "_").
        cbn [List.last]. rewrite E1, E2.
        change (String "_" (b +:+ String "_" t)) with ("_" +:+ b +:+ "_" +:+ t).
        by rewrite !string_append_assoc.
      * exists (a +:+ "_"). cbn [List.last]. rewrite E1.
        change (String "_" r) with ("_" +:+ r).
        by rewrite string_append_assoc.
    + by exists EmptyString.
Qed.

(** ** Beyond the claims: a supplied [fn_name] *)

Lemma format_only_cls_name fmt value :
  only_cls_name fmt → ∃ text, format fmt value = inr text.
Proof.
  induction fmt as [|[text|field] fmt IH]; intros Hf; simpl.
  - by eexists.
  - destruct IH as [t Ht].
    { intros f Hin. apply Hf. by right. }
    rewrite Ht. by eexists.
  - rewrite (Hf field); [|by left]. simpl.
    destruct IH as [t Ht].
    { intros f Hin. apply Hf. by right. }
    rewrite Ht. by eexists.
Qed.

Lemma get_field_value field value x :
  get_field field value = inr x → field = "cls_name" ∧ x = value.
Proof.
  unfold get_field.
  destruct (PyStr.plain field); simpl; [|done].
  destruct (PyStr.all_digits field).
  { by destruct (_ <=? _)%N. }
  destruct (String.eqb field "cls_name") eqn:E; [|done].
  apply String.eqb_eq in E. by intros [= <-].
Qed.

Lemma get_field_error field value :
  PyStr.plain field = true → field ≠ "cls_name" →
  get_field field value
  = inl (if PyStr.all_digits field
         then if (PyStr.decimal 0 field <=? PyStr.PY_SSIZE_T_MAX)%N
              then IndexError else ValueError
         else KeyError field).
Proof.
  intros Hp Hne. unfold get_field. rewrite Hp. simpl.
  destruct (PyStr.all_digits field).
  { by destruct (_ <=? _)%N. }
  destruct (String.eqb field "cls_name") eqn:E; [|done].
  by apply String.eqb_eq in E.
Qed.

Lemma format_unknown_field fmt value field :
  PyStr.Field field ∈ fmt → field ≠ "cls_name" →
  ∃ pre f post x,
    fmt = pre ++ PyStr.Field f :: post
    ∧ only_cls_name pre ∧ f ≠ "cls_name"
    ∧ get_field f value = inl x ∧ format fmt value = inl x.
Proof.
  induction fmt as [|[text|g] fmt IH]; intros Hin Hne.
  - by apply elem_of_nil in Hin.
  - apply elem_of_cons in Hin as [?|Hin]; [done|].
    destruct (IH Hin Hne) as (pre & f & post & x & -> & Hpre & Hfn & Hx & Hfmt).
    exists (PyStr.Lit text :: pre), f, post, x.
    split; [done|]. split.
    { intros h [?|Hh]%elem_of_cons; [done|]. by apply Hpre. }
    split; [done|]. split; [done|]. simpl. by rewrite Hfmt.
  - simpl. destruct (get_field g value) as [x|y] eqn:E.
    + exists [], g, fmt, x. split; [done|]. split.
      { by intros h ?%elem_of_nil. }
      split; [|done]. intros ->. by vm_compute in E.
    + apply get_field_value in E as [-> ->].
      apply elem_of_cons in Hin as [[= ->]|Hin]; [done|].
      destruct (IH Hin Hne) as (pre & f & post & x & -> & Hpre & Hfn & Hx & Hfmt).
      exists (PyStr.Field "cls_name" :: pre), f, post, x.
      split; [done|]. split.
      { intros h [[= ->]|Hh]%elem_of_cons; [done|]. by apply Hpre. }
      split; [done|]. split; [done|]. by rewrite Hfmt.
Qed.

(** X5: with a format string supplied as [fn_name], the reserved name is
    that string with [tp.name] in place of [{cls_name}] and nothing else:
    it is the same for any record display name, any decorated function
    and either mode, and the same for two descriptors with equal declared
    names; it is defined whenever [{cls_name}] is the only replacement
    field used. *)
Theorem fn_name_mode_name
    (d : Decoration) (fmt : PyStr.FormatString) (cn : string) (tp : TypeInfo) :
  fn_name_given d = Some fmt →
  reserved_name d cn tp = format fmt (name tp)
  ∧ (∀ d2 cn2 tp2,
        fn_name_given d2 = Some fmt → name tp2 = name tp →
        reserved_name d2 cn2 tp2 = reserved_name d cn tp)
  ∧ (only_cls_name fmt → ∃ text, reserved_name d cn tp = inr text).
Proof.
  intros Hd. unfold reserved_name. rewrite Hd. split; [done|]. split.
  - intros d2 cn2 tp2 Hd2 Hn. unfold reserved_name. by rewrite Hd2, Hn.
  - intros Hf. by apply format_only_cls_name.
Qed.

Lemma fn_name_mode_name_witness :
  reserved_name Samples.d_record "Container" (Demo.tp_node "v1")
  = inr "load_Node"
  ∧ reserved_name Samples.d_int_named "Other" (Demo.tp_node "v2")
    = reserved_name Samples.d_record "Container" (Demo.tp_node "v1").
Proof.
  pose proof (fn_name_mode_name Samples.d_record
                [PyStr.Lit "load_"; PyStr.Field "cls_name"] "Container"
                (Demo.tp_node "v1") eq_refl) as (H1 & H2 & _).
  split; [exact H1|].
  exact (H2 Samples.d_int_named "Other" (Demo.tp_node "v2") eq_refl eq_refl).
Defined.



(** The fields [{name}], [{0}], [{}] and a number beyond the largest
    index, in [fn_name='load_...']. *)
Example fields_that_are_not_cls_name :
  format [PyStr.Lit "load_"; PyStr.Field "name"] "Node" = inl (KeyError "name")
  ∧ format [PyStr.Lit "load_"; PyStr.Field "0"] "Node" = inl IndexError
  ∧ format [PyStr.Lit "load_"; PyStr.Field ""] "Node" = inl IndexError
  ∧ format [PyStr.Lit "load_"; PyStr.Field "9223372036854775808"] "Node"
    = inl ValueError
  ∧ format [PyStr.Lit "load_"; PyStr.Field "cls_name"; PyStr.Field "0"] "Node"
    = inl IndexError.
Proof. repeat split. Qed.

(** X7: an empty string supplied as [fn_name] counts as no [fn_name]:
    for every format string whose truth value is false, the wrapper
    behaves exactly as with [fn_name=None], default template and opened
    scope included, whatever the decorated function does. *)
Theorem empty_fn_name_is_absent
    (call : PyCallable → option ClsCtx → TypeInfo → loc → M unit)
    (f : PyCallable) (fmt : PyStr.FormatString) (generic : bool)
    (tp : TypeInfo) (e : loc) (c : option ClsCtx) (s : Store) :
  PyStr.truthy fmt = false →
  _wrapper_logic call
    {| func := f; fn_name := Some fmt; is_generic := generic |} tp e c s
  = _wrapper_logic call
      {| func := f; fn_name := None; is_generic := generic |} tp e c s.
Proof.
  intros Hfmt. unfold _wrapper_logic, reserved_name, fn_name_given.
  cbn [fn_name func is_generic]. rewrite Hfmt. reflexivity.
Qed.

Lemma empty_fn_name_is_absent_witness :
  _wrapper_logic (call_func [] 1) Samples.d_int_empty Samples.tp_int 0 None
    Demo.root
  = _wrapper_logic (call_func [] 1) Samples.d_int Samples.tp_int 0 None
      Demo.root.
Proof.
  apply (empty_fn_name_is_absent (call_func [] 1) Samples.load_to_int []
           false Samples.tp_int 0 None Demo.root).
  reflexivity.
Defined.

(** ** Beyond the claims: the forms of the decorator *)

(** X8: decoration with arguments first and the function afterwards gives
    what decoration of the function with the same arguments gives, an
    error for a callable without code object included; and
    [setup_recursive_safe_function_for_generic] gives a wrapper that keys
    the guard by [tp.args], names procedures by the positional index, and
    for a request whose [tp.args] has an entry in the guard returns a call
    of that entry whatever the origin, the name and the index of the
    descriptor. *)
Theorem decorator_forms
    (f : PyCallable) (fmt : option PyStr.FormatString) (generic : bool) :
  (∃ apply,
      setup_recursive_safe_function None fmt generic = Decorator apply
      ∧ ∀ g, match apply g with
             | inr w => Decorated w
             | inl x => SetupRaises x
             end
             = setup_recursive_safe_function (Some g) fmt generic)
  ∧ (∀ w,
        setup_recursive_safe_function_for_generic f = Decorated w →
        (∀ tp, cache_key (decoration w) tp = KArgs (args tp))
        ∧ (∀ cn tp,
              reserved_name (decoration w) cn tp
              = inr ("_load_" +:+ cn +:+ "_" +:+ tp_name_of f +:+ "_"
                       +:+ pretty (field_i tp)))
        ∧ (∀ call c tp e s ex G nm,
              dicts s !! e = Some ex →
              guards s !! recursion_guard ex = Some G →
              G !! KArgs (args tp) = Some nm →
              call_wrapper call w c tp e s
              = Ok (nm +:+ "(" +:+ v tp +:+ ")") s)).
Proof.
  split.
  - eexists. split; [reflexivity|]. intros g. reflexivity.
  - intros w Hw.
    assert (decoration w
            = {| func := f; fn_name := None; is_generic := true |}) as Hd.
    { unfold setup_recursive_safe_function_for_generic,
        setup_recursive_safe_function, decorate in Hw.
      destruct (co_argcount f) as [k|]; [|done].
      destruct (k =? 3); by injection Hw as <-. }
    split; [|split].
    + intros tp. by rewrite Hd.
    + intros cn tp. by rewrite Hd.
    + intros call c tp e s ex G nm He Hg Hk.
      rewrite call_wrapper_logic. eapply wrapper_hit; [done..|].
      by rewrite Hd.
Qed.

(** ** Beyond the claims: what a compilation builds *)

Lemma set_builders_id s : Heap.set_builders (builders s) s = s.
Proof. by destruct s. Qed.

Lemma run_body_emits inv e stmts k s ex fs proc params dflt body free outer :
  dicts s !! e = Some ex →
  builders s !! fn_gen ex
  = Some {| functions := fs;
            open_scopes :=
              (proc, {| proc_params := params; proc_default := dflt;
                        proc_body := body; proc_locals := free |}) :: outer |} →
  run_body inv e (emits stmts k) s
  = run_body inv e k
      (Heap.set_builders
         (<[fn_gen ex :=
              {| functions := fs;
                 open_scopes :=
                   (proc, {| proc_params := params; proc_default := dflt;
                             proc_body := body ++ stmts;
                             proc_locals := free |}) :: outer |}]>
            (builders s)) s).
Proof.
  revert s body. induction stmts as [|stmt stmts IH]; intros s body He Hb.
  - simpl. rewrite app_nil_r, list_insert_id; [|done]. by rewrite set_builders_id.
  - simpl. unfold bind at 1, Heap.get_extras, deref, ret. rewrite He. simpl.
    unfold bind at 1, Heap.emit, bind, deref, ret. rewrite Hb. simpl.
    rewrite (IH _ (body ++ [stmt])).
    + cbn [builders Heap.set_builders]. rewrite list_insert_insert_eq.
      by rewrite <-app_assoc.
    + done.
    + cbn [builders Heap.set_builders]. apply list_lookup_insert_eq.
      by eapply lookup_lt_Some.
Qed.

Lemma collision_single fm proc p :
  proc ∉ FB.defined fm →
  FB.collision fm {| functions := [(proc, p)]; open_scopes := [] |} = None.
Proof.
  intros H. unfold FB.collision, FB.defined. simpl.
  by rewrite bool_decide_eq_false_2.
Qed.

Lemma merge_run main other s fm fo :
  builders s !! main = Some fm →
  builders s !! other = Some fo →
  FB.collision fm fo = None →
  Heap.merge main other s
  = Ok tt (Heap.set_builders
             (<[main := {| functions := functions fm ++ functions fo;
                           open_scopes := open_scopes fm |}]> (builders s)) s).
Proof.
  intros Hm Ho Hc. unfold Heap.merge, bind, deref, lift, ret, FB.merge.
  rewrite Hm. simpl. rewrite Ho. simpl. by rewrite Hc.
Qed.

(** X9: a leaf compiler, one whose body only emits statements, on a cache
    miss under the default template: the request returns the call of the
    reserved name, and the store it ends in is the one it started in with
    the name reserved in the guard, a copy of the extras, a locals mapping
    holding the key under ['cls'], a nested builder holding the one
    procedure, and the same procedure, named by the reserved name, with
    the parameter [v1] and the emitted statements as body, added after the
    definitions of the caller's builder. The name must be new to that
    builder. *)
Theorem leaf_compile
    (registry : list Wrapper) (n : nat) (d : Decoration) (tp : TypeInfo)
    (e : loc) (c : option ClsCtx) (s : Store) (ex : Extras)
    (G : gmap Key string) (fm : FunctionBuilder) (stmts : list string) :
  dicts s !! e = Some ex →
  guards s !! recursion_guard ex = Some G →
  G !! cache_key d tp = None →
  fn_name_given d = None →
  func_body (func d) (passed c) tp = emits stmts Return →
  builders s !! fn_gen ex = Some fm →
  let nm :=
    default_fn_name (is_generic d) (cls_name ex) (tp_name_of (func d)) tp in
  let p := procedure_of ["v1"] stmts (length (scopes s)) in
  nm ∉ FB.defined fm →
  _wrapper_logic (call_func registry (S n)) d tp e c s
  = Ok (nm +:+ "(" +:+ v tp +:+ ")")
      {| guards :=
           <[recursion_guard ex := <[cache_key d tp := nm]> G]> (guards s);
         builders :=
           <[fn_gen ex := {| functions := functions fm ++ [(nm, p)];
                             open_scopes := open_scopes fm |}]>
             (builders s ++ [{| functions := [(nm, p)]; open_scopes := [] |}]);
         dicts :=
           dicts s ++ [{| recursion_guard := recursion_guard ex;
                          cls_name := cls_name ex;
                          fn_gen := length (builders s);
                          locals := length (scopes s) |}];
         scopes := scopes s ++ [{["cls" := cache_key d tp]}];
         trace :=
           trace s ++ [{| inv_guard := recursion_guard ex;
                          inv_key := cache_key d tp;
                          inv_func := func_name (func d);
                          inv_cls := passed c;
                          inv_extras := length (dicts s) |}] |}.
Proof.
  intros He Hg Hk Hd Hbody Hfm nm p Hfresh.
  assert (fn_gen ex < length (builders s)) as Hlt by (by eapply lookup_lt_Some).
  rewrite (wrapper_miss _ _ _ _ _ _ ex G nm); [|done..|by apply reserved_name_default].
  cbn [call_func]. rewrite Hbody.
  rewrite (run_body_emits _ _ stmts Return _
             {| recursion_guard := recursion_guard ex; cls_name := cls_name ex;
                fn_gen := length (builders s); locals := length (scopes s) |}
             [] nm ["v1"] MISSING [] (length (scopes s)) []).
  2: { apply entry_store_extras. }
  2: { unfold entry_store. cbn [builders fn_gen]. rewrite Hd. apply lookup_end. }
  cbn [run_body ret after_body fn_gen app].
  unfold close_scope. rewrite Hd.
  unfold entry_store, guard_at, Heap.update_builder, Heap.set_builders.
  rewrite Hg, Hd. cbn [builders guards dicts scopes trace default id].
  rewrite insert_end, alter_end.
  unfold bind.
  erewrite (merge_run (fn_gen ex) (length (builders s)) _ fm
              {| functions := [(nm, p)]; open_scopes := [] |}).
  - reflexivity.
  - cbn [builders]. by apply lookup_app_l_Some.
  - cbn [builders]. apply lookup_end.
  - by apply collision_single.
Qed.

Lemma alter_insert_eq {A} (f : A → A) (l : list A) i x :
  alter f i (<[i := x]> l) = <[i := f x]> l.
Proof.
  revert i. induction l as [|y l IH]; intros [|i]; simpl; try done.
  f_equal. apply IH.
Qed.

Lemma insert_alter_eq {A} (f : A → A) (l : list A) i x :
  <[i := x]> (alter f i l) = <[i := x]> l.
Proof.
  revert i. induction l as [|y l IH]; intros [|i]; simpl; try done.
  f_equal. apply IH.
Qed.

Lemma run_body_own_scope inv e proc params stmts s ex fs outer :
  dicts s !! e = Some ex →
  builders s !! fn_gen ex = Some {| functions := fs; open_scopes := outer |} →
  run_body inv e (WithFunction proc params (emits stmts Return) Return) s
  = Ok tt
      (Heap.set_builders
         (<[fn_gen ex :=
              {| functions :=
                   FB.record proc (procedure_of params stmts (locals ex)) fs;
                 open_scopes := outer |}]> (builders s)) s).
Proof.
  intros He Hb.
  assert (fn_gen ex < length (builders s)) as Hlt by (by eapply lookup_lt_Some).
  cbn [run_body]. unfold bind at 1, Heap.get_extras, deref, ret. rewrite He.
  cbn beta iota.
  unfold bind, Heap.with_function, bind, deref, ret, finally. rewrite Hb.
  cbn beta iota.
  rewrite (run_body_emits inv e stmts Return _ ex fs proc params MISSING []
             (locals ex) outer).
  - cbn [run_body ret]. unfold Heap.update_builder, Heap.set_builders.
    cbn [builders guards dicts scopes trace].
    rewrite insert_alter_eq, alter_insert_eq. reflexivity.
  - done.
  - unfold Heap.update_builder. cbn [builders Heap.set_builders].
    unfold loc in *. by rewrite list_lookup_alter_eq, Hb.
Qed.

(** X10: with [fn_name] supplied the wrapper opens no scope. For a
    decorated function that opens its procedure itself, with a name and
    parameters of its own, and emits statements into it, a cache miss adds
    exactly that procedure to the caller's builder, while the name
    reserved in the guard and used in the returned call is the formatted
    [fn_name]: it is for the function to define the procedure under that
    name. *)
Theorem own_scope_compile
    (registry : list Wrapper) (n : nat) (d : Decoration)
    (fmt : PyStr.FormatString) (tp : TypeInfo) (e : loc) (c : option ClsCtx)
    (s : Store) (ex : Extras) (G : gmap Key string) (fm : FunctionBuilder)
    (proc : string) (params stmts : list string) (nm : string) :
  dicts s !! e = Some ex →
  guards s !! recursion_guard ex = Some G →
  G !! cache_key d tp = None →
  fn_name_given d = Some fmt →
  format fmt (name tp) = inr nm →
  func_body (func d) (passed c) tp
  = WithFunction proc params (emits stmts Return) Return →
  builders s !! fn_gen ex = Some fm →
  proc ∉ FB.defined fm →
  let p := procedure_of params stmts (length (scopes s)) in
  _wrapper_logic (call_func registry (S n)) d tp e c s
  = Ok (nm +:+ "(" +:+ v tp +:+ ")")
      {| guards :=
           <[recursion_guard ex := <[cache_key d tp := nm]> G]> (guards s);
         builders :=
           <[fn_gen ex := {| functions := functions fm ++ [(proc, p)];
                             open_scopes := open_scopes fm |}]>
             (builders s ++ [{| functions := [(proc, p)]; open_scopes := [] |}]);
         dicts :=
           dicts s ++ [{| recursion_guard := recursion_guard ex;
                          cls_name := cls_name ex;
                          fn_gen := length (builders s);
                          locals := length (scopes s) |}];
         scopes := scopes s ++ [{["cls" := cache_key d tp]}];
         trace :=
           trace s ++ [{| inv_guard := recursion_guard ex;
                          inv_key := cache_key d tp;
                          inv_func := func_name (func d);
                          inv_cls := passed c;
                          inv_extras := length (dicts s) |}] |}.
Proof.
  intros He Hg Hk Hd Hfmt Hbody Hfm Hfresh p.
  assert (fn_gen ex < length (builders s)) as Hlt by (by eapply lookup_lt_Some).
  rewrite (wrapper_miss _ _ _ _ _ _ ex G nm); [|done..|].
  2: { unfold reserved_name. by rewrite Hd. }
  cbn [call_func]. rewrite Hbody.
  rewrite (run_body_own_scope _ _ proc params stmts _
             {| recursion_guard := recursion_guard ex; cls_name := cls_name ex;
                fn_gen := length (builders s); locals := length (scopes s) |}
             [] []).
  2: { apply entry_store_extras. }
  2: { unfold entry_store. cbn [builders fn_gen]. rewrite Hd. apply lookup_end. }
  cbn [after_body fn_gen locals FB.record].
  unfold close_scope. rewrite Hd.
  unfold entry_store, guard_at, Heap.set_builders.
  rewrite Hg, Hd. cbn [builders guards dicts scopes trace default id].
  rewrite insert_end.
  unfold bind.
  erewrite (merge_run (fn_gen ex) (length (builders s)) _ fm
              {| functions := [(proc, p)]; open_scopes := [] |}).
  - reflexivity.
  - cbn [builders]. by apply lookup_app_l_Some.
  - cbn [builders]. apply lookup_end.
  - by apply collision_single.
Qed.

Lemma leaf_compile_witness :
  functions
    <$> builders
          (Demo.store_of
             (_wrapper_logic (call_func [] 1) Samples.d_int Samples.tp_int 0
                None Demo.root)) !! 0
  = Some [("_load_Node_int_int", procedure_of ["v1"] ["return int(v1)"] 1)].
Proof.
  rewrite (leaf_compile [] 0 Samples.d_int Samples.tp_int 0 None Demo.root
             Demo.root_extras ∅ FB.empty ["return int(v1)"]
             eq_refl eq_refl eq_refl eq_refl eq_refl eq_refl).
  - reflexivity.
  - apply not_elem_of_nil.
Defined.

Lemma own_scope_compile_witness :
  functions
    <$> builders
          (Demo.store_of
             (_wrapper_logic (call_func [] 1) Samples.d_record
                (Demo.tp_node "v1") 0 None Demo.root)) !! 0
  = Some [("load_Node",
           procedure_of ["v1"; "strict"] ["return cls(v1, strict)"] 1)].
Proof.
  rewrite (own_scope_compile [] 0 Samples.d_record
             [PyStr.Lit "load_"; PyStr.Field "cls_name"] (Demo.tp_node "v1") 0
             None Demo.root Demo.root_extras ∅ FB.empty "load_Node"
             ["v1"; "strict"] ["return cls(v1, strict)"] "load_Node"
             eq_refl eq_refl eq_refl eq_refl eq_refl eq_refl eq_refl).
  - reflexivity.
  - apply not_elem_of_nil.
Defined.

(** ** Beyond the claims: the class context *)

(** X11: whichever closure decoration returned, on a cache miss the first
    thing on record is the call of the decorated function of that wrapper
    for the key of the request, and the function receives the class
    context exactly when the context given to the wrapper has a true truth
    value: a plain function given such a third argument receives it, and
    a method-shaped one given [None] or a context that is false is called
    without. *)
Theorem class_context_by_truthiness
    (registry : list Wrapper) (n : nat) (w : Wrapper) (c : option ClsCtx)
    (tp : TypeInfo) (e : loc) (s : Store) (ex : Extras)
    (G : gmap Key string) (nm : string) (s' : Store) :
  dicts s !! e = Some ex →
  guards s !! recursion_guard ex = Some G →
  G !! cache_key (decoration w) tp = None →
  reserved_name (decoration w) (cls_name ex) tp = inr nm →
  outcome (compile registry n w c tp e s) = Some s' →
  ∃ i rest,
    trace s' = trace s ++ i :: rest
    ∧ inv_func i = func_name (func (decoration w))
    ∧ inv_key i = cache_key (decoration w) tp
    ∧ inv_extras i = length (dicts s)
    ∧ inv_cls i = if is_truthy c then c else None.
Proof.
  intros He Hg Hk Hn Ho. unfold compile in Ho.
  rewrite call_wrapper_logic in Ho.
  rewrite (wrapper_miss _ _ _ _ _ _ ex G nm) in Ho; [|done..].
  apply (after_body_from_entry (decoration w) tp ex nm c s) in Ho
    as (s1 & _ & H1 & H2).
  2: { apply (call_func_evolves registry n (func (decoration w)) (passed c) tp
                (length (dicts s)) (entry_store (decoration w) tp ex nm c s) _
                (entry_store_extras (decoration w) tp ex nm c s)). }
  destruct (ev_calls _ _ _ _ H1) as (new1 & Ht1 & _).
  destruct (ev_calls _ _ _ _ H2) as (new2 & Ht2 & _).
  eexists _, (new1 ++ new2). split.
  - rewrite Ht2, Ht1. unfold entry_store. cbn [trace].
    rewrite <-!app_assoc. reflexivity.
  - done.
Qed.

Lemma class_context_by_truthiness_witness :
  ∃ i rest,
    trace (Demo.store_of (Demo.model_with Demo.some_ctx)) = [] ++ i :: rest
    ∧ inv_func i = "load_to_model"
    ∧ inv_key i = KOrigin 1%positive
    ∧ inv_extras i = 1
    ∧ inv_cls i = Some Demo.some_ctx.
Proof.
  apply (class_context_by_truthiness [wrapper_class_method Demo.d_model] 1
           (wrapper_class_method Demo.d_model) (Some Demo.some_ctx)
           (Demo.tp_node "v1") 0 Demo.root Demo.root_extras ∅
           "_load_Node_model_Node"
           (Demo.store_of (Demo.model_with Demo.some_ctx)));
    reflexivity.
Defined.

(** ** Beyond the claims: what a request allocates *)

Section Invariant.

(** A property of stores that does not depend on the contents of the
    builders and holds again once a decorated function is entered. *)
Variable I : Store → Prop.
Hypothesis I_builders :
  ∀ s bs, length bs = length (builders s) → I s → I (Heap.set_builders bs s).
Hypothesis I_entry :
  ∀ d tp ex nm c s,
    dicts s !! length (dicts s) = None →
    I s → I (entry_store d tp ex nm c s).

Lemma invariant_emit b stmt s s' :
  I s → outcome (Heap.emit b stmt s) = Some s' → I s'.
Proof.
  intros HI. unfold Heap.emit, bind, deref, ret, raise.
  destruct (builders s !! b) as [fb|]; simpl; [|by intros [= <-]].
  destruct (FB.emit stmt fb); simpl; intros [= <-]; [|done].
  apply I_builders; [by rewrite length_insert|done].
Qed.

Lemma invariant_update_builder b f s : I s → I (Heap.update_builder b f s).
Proof. intros HI. apply I_builders; [by rewrite length_alter|done]. Qed.

Lemma invariant_merge main other s s' :
  I s → outcome (Heap.merge main other s) = Some s' → I s'.
Proof.
  intros HI. unfold Heap.merge, bind, deref, ret, raise, lift.
  destruct (builders s !! main) as [fm|]; simpl; [|by intros [= <-]].
  destruct (builders s !! other) as [fo|]; simpl; [|by intros [= <-]].
  destruct (FB.merge fm fo); simpl; intros [= <-]; [done|].
  apply I_builders; [by rewrite length_insert|done].
Qed.

Lemma invariant_close_scope d nb s : I s → I (close_scope d nb s).
Proof.
  intros HI. unfold close_scope. destruct (fn_name_given d); [done|].
  by apply invariant_update_builder.
Qed.

Lemma run_body_invariant (inv : Invoke) :
  (∀ callee c tp e s s',
      I s → outcome (inv callee c tp e s) = Some s' → I s') →
  ∀ b e s s', I s → outcome (run_body inv e b s) = Some s' → I s'.
Proof.
  intros Hinv b.
  induction b as [|stmt k IH|callee c tp k IH|proc params inner IHi k IHk|x];
    intros e s s' HI; simpl.
  - by intros [= <-].
  - unfold bind at 1, Heap.get_extras, deref.
    destruct (dicts s !! e) as [ex|]; simpl; [|by intros [= <-]].
    unfold bind.
    destruct (Heap.emit (fn_gen ex) stmt s) as [[] s1|y s1|] eqn:E; simpl.
    + apply IH. eapply invariant_emit; [done|]. by rewrite E.
    + intros [= <-]. eapply invariant_emit; [done|]. by rewrite E.
    + done.
  - unfold bind.
    destruct (inv callee c tp e s) as [r s1|y s1|] eqn:E; simpl.
    + apply IH. eapply Hinv; [done|]. by rewrite E.
    + intros [= <-]. eapply Hinv; [done|]. by rewrite E.
    + done.
  - unfold bind at 1, Heap.get_extras, deref.
    destruct (dicts s !! e) as [ex|]; simpl; [|by intros [= <-]].
    unfold bind, Heap.with_function, bind, deref, finally.
    destruct (builders s !! fn_gen ex) as [fb|]; simpl; [|by intros [= <-]].
    destruct (run_body inv e inner _) as [[] s1|y s1|] eqn:E; simpl.
    + apply IHk. apply invariant_update_builder.
      eapply (IHi e _ s1); [by apply invariant_update_builder|by rewrite E].
    + intros [= <-]. apply invariant_update_builder.
      eapply (IHi e _ s1); [by apply invariant_update_builder|by rewrite E].
    + done.
  - by intros [= <-].
Qed.

Lemma wrapper_invariant registry n :
  ∀ w c tp e s s',
    I s →
    outcome (call_wrapper (call_func registry n) w c tp e s) = Some s' →
    I s'.
Proof.
  induction n as [|n IH]; intros w c tp e s s' HI;
    rewrite call_wrapper_logic.
  all: destruct (dicts s !! e) as [ex|] eqn:He;
    [|rewrite wrapper_dangling_extras; [by intros [= <-]|done]].
  all: destruct (guards s !! recursion_guard ex) as [G|] eqn:Hg;
    [|rewrite (wrapper_dangling_guard _ _ _ _ _ _ ex); [by intros [= <-]|done..]].
  all: destruct (G !! cache_key (decoration w) tp) as [nm|] eqn:Hk;
    [rewrite (wrapper_hit _ _ _ _ _ _ ex G nm); [by intros [= <-]|done..]|].
  all: destruct (reserved_name (decoration w) (cls_name ex) tp) as [x|nm] eqn:Hnm;
    [rewrite (wrapper_name_error _ _ _ _ _ _ ex G x); [by intros [= <-]|done..]|].
  all: rewrite (wrapper_miss _ _ _ _ _ _ ex G nm); [|done..].
  - done.
  - assert (I (entry_store (decoration w) tp ex nm c s)) as Hentry.
    { apply I_entry; [by apply lookup_ge_None|done]. }
    assert (∀ s1, outcome (call_func registry (S n) (func (decoration w))
                             (passed c) tp (length (dicts s))
                             (entry_store (decoration w) tp ex nm c s)) = Some s1 →
                  I (close_scope (decoration w) (length (builders s)) s1)) as Hbody.
    { intros s1 Hs1. apply invariant_close_scope.
      simpl in Hs1. revert Hs1. apply run_body_invariant; [|done].
      intros callee c' tp' e' s2 s3 HI2.
      destruct (registry !! callee) as [w'|] eqn:Hc; [|by intros [= <-]].
      by apply IH. }
    destruct (call_func registry (S n) _ _ _ _ _) as [[] s1|y s1|]; [| |done].
    + cbn [after_body]. unfold bind.
      destruct (Heap.merge _ _ _) as [[] s2|z s2|] eqn:Em; simpl; [| |done];
        intros [= <-];
        (eapply invariant_merge; [|by rewrite Em]); by apply Hbody.
    + cbn [after_body]. intros [= <-]. by apply Hbody.
Qed.

End Invariant.

(** X12: a request allocates one builder, one locals mapping and one
    extras mapping for each call of a decorated function made during it,
    nested requests included, and nothing else; when no function is
    entered (a cache hit, a name that cannot be formatted) the request
    allocates nothing. *)
Theorem request_allocations
    (registry : list Wrapper) (n : nat) (w : Wrapper) (c : option ClsCtx)
    (tp : TypeInfo) (e : loc) (s : Store) (ex : Extras) (s' : Store) :
  dicts s !! e = Some ex →
  outcome (compile registry n w c tp e s) = Some s' →
  ∃ new,
    trace s' = trace s ++ new
    ∧ length (builders s') = length (builders s) + length new
    ∧ length (dicts s') = length (dicts s) + length new
    ∧ length (scopes s') = length (scopes s) + length new.
Proof.
  intros He Ho.
  pose proof (compile_evolves registry n w c tp e s ex He s' Ho) as Hev.
  destruct (ev_calls _ _ _ _ Hev) as (new & Ht & _).
  exists new. split; [done|].
  assert (length (builders s') + length (trace s)
          = length (builders s) + length (trace s')
          ∧ length (dicts s') + length (trace s)
            = length (dicts s) + length (trace s')
          ∧ length (scopes s') + length (trace s)
            = length (scopes s) + length (trace s')) as (Hb & Hd & Hl).
  { revert Ho. unfold compile.
    apply (wrapper_invariant
             (λ s1, length (builders s1) + length (trace s)
                    = length (builders s) + length (trace s1)
                    ∧ length (dicts s1) + length (trace s)
                      = length (dicts s) + length (trace s1)
                    ∧ length (scopes s1) + length (trace s)
                      = length (scopes s) + length (trace s1))).
    - intros s1 bs Hbs (H1 & H2 & H3). cbn [Heap.set_builders builders dicts scopes trace].
      rewrite Hbs. done.
    - intros d0 tp0 ex0 nm0 c0 s1 _ (H1 & H2 & H3).
      unfold entry_store. cbn [builders dicts scopes trace].
      rewrite !length_app. simpl. lia.
    - done. }
  rewrite Ht, length_app in Hb, Hd, Hl. lia.
Qed.

Lemma request_allocations_witness :
  ∃ new,
    trace Demo.node_compiled = [] ++ new
    ∧ length (builders Demo.node_compiled) = 1 + length new
    ∧ length (dicts Demo.node_compiled) = 1 + length new
    ∧ length (scopes Demo.node_compiled) = 1 + length new.
Proof.
  apply (request_allocations Demo.node_registry 1 (wrapper_logic Demo.d_load)
           None (Demo.tp_node "v1") 0 Demo.root Demo.root_extras
           Demo.node_compiled);
    reflexivity.
Defined.

(** ** Beyond the claims: records that refer to other types *)

Lemma entry_store_guards d tp ex nm c s G :
  guards s !! recursion_guard ex = Some G →
  guards (entry_store d tp ex nm c s) !! recursion_guard ex
  = Some (<[cache_key d tp := nm]> G).
Proof.
  intros Hg. unfold entry_store, guard_at. cbn [guards]. rewrite Hg. simpl.
  apply list_lookup_insert_eq. by eapply lookup_lt_Some.
Qed.

Lemma default_miss_single call d tp e c s ex G fm stmts :
  dicts s !! e = Some ex →
  guards s !! recursion_guard ex = Some G →
  G !! cache_key d tp = None →
  fn_name_given d = None →
  builders s !! fn_gen ex = Some fm →
  let nm :=
    default_fn_name (is_generic d) (cls_name ex) (tp_name_of (func d)) tp in
  nm ∉ FB.defined fm →
  call (func d) (passed c) tp (length (dicts s)) (entry_store d tp ex nm c s)
  = Ok tt
      (Heap.set_builders
         (<[length (builders s) :=
              {| functions := [];
                 open_scopes :=
                   [(nm, procedure_of ["v1"] stmts (length (scopes s)))] |}]>
            (builders (entry_store d tp ex nm c s)))
         (entry_store d tp ex nm c s)) →
  _wrapper_logic call d tp e c s
  = Ok (nm +:+ "(" +:+ v tp +:+ ")")
      (single_procedure_store d tp ex c G fm nm stmts s).
Proof.
  intros He Hg Hk Hd Hfm nm Hfresh Hrun.
  assert (fn_gen ex < length (builders s)) as Hlt by (by eapply lookup_lt_Some).
  rewrite (wrapper_miss _ _ _ _ _ _ ex G nm); [|done..|by apply reserved_name_default].
  rewrite Hrun.
  cbn [after_body]. unfold close_scope. rewrite Hd.
  unfold single_procedure_store.
  unfold entry_store, guard_at, Heap.update_builder, Heap.set_builders.
  rewrite Hg, Hd. cbn [builders guards dicts scopes trace default id].
  rewrite insert_end, alter_end.
  unfold bind.
  erewrite (merge_run (fn_gen ex) (length (builders s)) _ fm
              {| functions := [(nm, procedure_of ["v1"] stmts (length (scopes s)))];
                 open_scopes := [] |}).
  - reflexivity.
  - cbn [builders]. by apply lookup_app_l_Some.
  - cbn [builders]. apply lookup_end.
  - by apply collision_single.
Qed.

Lemma reserved_reference_run registry n d tp e c s ex G fm callee w2 c2 tp2
    stmts nm2 :
  dicts s !! e = Some ex →
  guards s !! recursion_guard ex = Some G →
  G !! cache_key d tp = None →
  fn_name_given d = None →
  builders s !! fn_gen ex = Some fm →
  func_body (func d) (passed c) tp
  = Call callee c2 tp2 (λ r, emits (stmts r) Return) →
  registry !! callee = Some w2 →
  let nm :=
    default_fn_name (is_generic d) (cls_name ex) (tp_name_of (func d)) tp in
  <[cache_key d tp := nm]> G !! cache_key (decoration w2) tp2 = Some nm2 →
  nm ∉ FB.defined fm →
  _wrapper_logic (call_func registry (S n)) d tp e c s
  = Ok (nm +:+ "(" +:+ v tp +:+ ")")
      (single_procedure_store d tp ex c G fm nm
         (stmts (nm2 +:+ "(" +:+ v tp2 +:+ ")")) s).
Proof.
  intros He Hg Hk Hd Hfm Hbody Hreg nm Hkey Hfresh.
  apply (default_miss_single _ _ _ _ _ _ _ G); try done.
  cbn [call_func]. rewrite Hbody. cbn [run_body]. rewrite Hreg.
  unfold bind at 1. rewrite call_wrapper_logic.
  rewrite (wrapper_hit _ _ _ _ _ _
             {| recursion_guard := recursion_guard ex; cls_name := cls_name ex;
                fn_gen := length (builders s); locals := length (scopes s) |}
             (<[cache_key d tp := nm]> G) nm2).
  2: { apply entry_store_extras. }
  2: { cbn [recursion_guard]. by apply entry_store_guards. }
  2: { done. }
  rewrite (run_body_emits _ _ _ Return _
             {| recursion_guard := recursion_guard ex; cls_name := cls_name ex;
                fn_gen := length (builders s); locals := length (scopes s) |}
             [] nm ["v1"] MISSING [] (length (scopes s)) []).
  - reflexivity.
  - apply entry_store_extras.
  - unfold entry_store. cbn [builders fn_gen]. rewrite Hd. apply lookup_end.
Qed.

(** X13: a reference to a type whose name is already reserved. When
    the decorated function asks for the compilation of a descriptor whose
    cache key is in the guard, be it the key it is itself being compiled
    for (a record with a field of its own type) or one reserved earlier,
    and then emits statements built from the call it gets back, the nested
    request is answered from the guard: one nesting level is enough, and
    the request ends in the store of a leaf compilation, with one
    procedure whose body calls the referred procedure by its reserved
    name. *)
Theorem reference_to_reserved_type
    (registry : list Wrapper) (n : nat) (d : Decoration) (tp : TypeInfo)
    (e : loc) (c : option ClsCtx) (s : Store) (ex : Extras)
    (G : gmap Key string) (fm : FunctionBuilder)
    (callee : nat) (w2 : Wrapper) (c2 : option ClsCtx) (tp2 : TypeInfo)
    (stmts : string → list string) (nm2 : string) :
  dicts s !! e = Some ex →
  guards s !! recursion_guard ex = Some G →
  G !! cache_key d tp = None →
  fn_name_given d = None →
  builders s !! fn_gen ex = Some fm →
  func_body (func d) (passed c) tp
  = Call callee c2 tp2 (λ r, emits (stmts r) Return) →
  registry !! callee = Some w2 →
  let nm :=
    default_fn_name (is_generic d) (cls_name ex) (tp_name_of (func d)) tp in
  <[cache_key d tp := nm]> G !! cache_key (decoration w2) tp2 = Some nm2 →
  nm ∉ FB.defined fm →
  _wrapper_logic (call_func registry (S n)) d tp e c s
  = Ok (nm +:+ "(" +:+ v tp +:+ ")")
      (single_procedure_store d tp ex c G fm nm
         (stmts (nm2 +:+ "(" +:+ v tp2 +:+ ")")) s).
Proof. apply reserved_reference_run. Qed.

Lemma leaf_run registry n d tp e c s ex G fm stmts :
  dicts s !! e = Some ex →
  guards s !! recursion_guard ex = Some G →
  G !! cache_key d tp = None →
  fn_name_given d = None →
  func_body (func d) (passed c) tp = emits stmts Return →
  builders s !! fn_gen ex = Some fm →
  let nm :=
    default_fn_name (is_generic d) (cls_name ex) (tp_name_of (func d)) tp in
  nm ∉ FB.defined fm →
  _wrapper_logic (call_func registry (S n)) d tp e c s
  = Ok (nm +:+ "(" +:+ v tp +:+ ")")
      (single_procedure_store d tp ex c G fm nm stmts s).
Proof.
  intros He Hg Hk Hd Hbody Hfm nm Hfresh.
  apply (default_miss_single _ _ _ _ _ _ _ G); try done.
  cbn [call_func]. rewrite Hbody.
  rewrite (run_body_emits _ _ _ Return _
             {| recursion_guard := recursion_guard ex; cls_name := cls_name ex;
                fn_gen := length (builders s); locals := length (scopes s) |}
             [] nm ["v1"] MISSING [] (length (scopes s)) []).
  - reflexivity.
  - apply entry_store_extras.
  - unfold entry_store. cbn [builders fn_gen]. rewrite Hd. apply lookup_end.
Qed.

Lemma collision_pair fm p1 x1 p2 x2 :
  p1 ∉ FB.defined fm → p2 ∉ FB.defined fm →
  FB.collision fm {| functions := [(p1, x1); (p2, x2)]; open_scopes := [] |}
  = None.
Proof.
  intros H1 H2. unfold FB.collision, FB.defined. simpl.
  by rewrite !bool_decide_eq_false_2.
Qed.

Lemma default_miss_finish call d tp e c s ex G fm nm s1 fs proc p :
  dicts s !! e = Some ex →
  guards s !! recursion_guard ex = Some G →
  G !! cache_key d tp = None →
  fn_name_given d = None →
  reserved_name d (cls_name ex) tp = inr nm →
  call (func d) (passed c) tp (length (dicts s)) (entry_store d tp ex nm c s)
  = Ok tt s1 →
  builders s1 !! fn_gen ex = Some fm →
  fn_gen ex ≠ length (builders s) →
  builders s1 !! length (builders s)
  = Some {| functions := fs; open_scopes := [(proc, p)] |} →
  FB.collision fm {| functions := FB.record proc p fs; open_scopes := [] |}
  = None →
  _wrapper_logic call d tp e c s
  = Ok (nm +:+ "(" +:+ v tp +:+ ")")
      (Heap.set_builders
         (<[fn_gen ex :=
              {| functions := functions fm ++ FB.record proc p fs;
                 open_scopes := open_scopes fm |}]>
            (<[length (builders s) :=
                 {| functions := FB.record proc p fs; open_scopes := [] |}]>
               (builders s1))) s1).
Proof.
  intros He Hg Hk Hd Hn Hrun Hfm Hne Hnb Hcol.
  rewrite (wrapper_miss _ _ _ _ _ _ ex G nm); [|done..].
  rewrite Hrun. cbn [after_body]. unfold close_scope. rewrite Hd.
  unfold bind.
  assert (builders (Heap.update_builder (length (builders s)) FB.seal s1)
          = <[length (builders s) :=
                {| functions := FB.record proc p fs; open_scopes := [] |}]>
              (builders s1)) as Hsealed.
  { unfold Heap.update_builder. cbn [builders Heap.set_builders].
    apply list_eq. intros i. destruct (decide (i = length (builders s))) as [->|Hi].
    - unfold loc in *. rewrite list_lookup_alter_eq, Hnb.
      rewrite list_lookup_insert_eq; [done|]. by eapply lookup_lt_Some.
    - rewrite list_lookup_alter_ne, list_lookup_insert_ne; done. }
  erewrite (merge_run (fn_gen ex) (length (builders s)) _ fm
              {| functions := FB.record proc p fs; open_scopes := [] |}).
  - rewrite Hsealed. reflexivity.
  - rewrite Hsealed. unfold loc in *. by rewrite list_lookup_insert_ne.
  - rewrite Hsealed. apply list_lookup_insert_eq. by eapply lookup_lt_Some.
  - done.
Qed.

Lemma gained_procedures_distinct inner p_inner outer p_outer :
  inner ≠ outer →
  gained_procedures inner p_inner outer p_outer
  = [(inner, p_inner); (outer, p_outer)].
Proof.
  intros H. unfold gained_procedures.
  destruct (String.eqb inner outer) eqn:E; [|done].
  by apply String.eqb_eq in E.
Qed.

Lemma gained_procedures_same inner p_inner outer p_outer :
  inner = outer →
  gained_procedures inner p_inner outer p_outer = [(outer, p_outer)].
Proof. intros ->. unfold gained_procedures. by rewrite String.eqb_refl. Qed.

Lemma nested_run registry n d tp e c s ex G fm callee w2 c2 tp2 stmts stmts2
    nm2 :
  dicts s !! e = Some ex →
  guards s !! recursion_guard ex = Some G →
  G !! cache_key d tp = None →
  fn_name_given d = None →
  builders s !! fn_gen ex = Some fm →
  func_body (func d) (passed c) tp
  = Call callee c2 tp2 (λ r, emits (stmts r) Return) →
  registry !! callee = Some w2 →
  let nm :=
    default_fn_name (is_generic d) (cls_name ex) (tp_name_of (func d)) tp in
  let ex1 :=
    {| recursion_guard := recursion_guard ex; cls_name := cls_name ex;
       fn_gen := length (builders s); locals := length (scopes s) |} in
  let fm1 :=
    {| functions := [];
       open_scopes := [(nm, procedure_of ["v1"] [] (length (scopes s)))] |} in
  _wrapper_logic (call_func registry (S n)) (decoration w2) tp2
    (length (dicts s)) c2 (entry_store d tp ex nm c s)
  = Ok (nm2 +:+ "(" +:+ v tp2 +:+ ")")
      (single_procedure_store (decoration w2) tp2 ex1 c2
         (<[cache_key d tp := nm]> G) fm1 nm2 stmts2
         (entry_store d tp ex nm c s)) →
  nm ∉ FB.defined fm →
  nm2 ∉ FB.defined fm →
  ∃ s',
    _wrapper_logic (call_func registry (S (S n))) d tp e c s
    = Ok (nm +:+ "(" +:+ v tp +:+ ")") s'
    ∧ builders s' !! fn_gen ex
      = Some {| functions :=
                  functions fm
                  ++ gained_procedures nm2
                       (procedure_of ["v1"] stmts2 (S (length (scopes s))))
                       nm
                       (procedure_of ["v1"]
                          (stmts (nm2 +:+ "(" +:+ v tp2 +:+ ")"))
                          (length (scopes s)));
                open_scopes := open_scopes fm |}
    ∧ guards s' !! recursion_guard ex
      = Some (<[cache_key (decoration w2) tp2 := nm2]>
                (<[cache_key d tp := nm]> G))
    ∧ invoked (trace s')
      = invoked (trace s) ++ [cache_key d tp; cache_key (decoration w2) tp2].
Proof.
  intros He Hg Hk Hd Hfm Hbody Hreg nm ex1 fm1 Hleaf Hfresh Hfresh2.
  assert (fn_gen ex < length (builders s)) as Hlt by (by eapply lookup_lt_Some).
  set (entry := entry_store d tp ex nm c s) in *.
  assert (dicts entry !! length (dicts s) = Some ex1) as He1
      by apply entry_store_extras.
  assert (length (builders entry) = S (length (builders s))) as Hlen.
  { unfold entry, entry_store. cbn [builders]. rewrite length_app. simpl. lia. }
  assert (length (scopes entry) = S (length (scopes s))) as Hlen2.
  { unfold entry, entry_store. cbn [scopes]. rewrite length_app. simpl. lia. }
  set (s2 := single_procedure_store (decoration w2) tp2 ex1 c2
               (<[cache_key d tp := nm]> G) fm1 nm2 stmts2 entry) in *.
  assert (builders s2 !! length (builders s)
          = Some {| functions := [(nm2, procedure_of ["v1"] stmts2
                                          (S (length (scopes s))))];
                    open_scopes :=
                      [(nm, procedure_of ["v1"] [] (length (scopes s)))] |})
    as Hnb2.
  { unfold s2, single_procedure_store. cbn [builders fn_gen ex1 functions fm1 app open_scopes].
    rewrite Hlen2. apply list_lookup_insert_eq. rewrite length_app, Hlen. lia. }
  assert (dicts s2 !! length (dicts s) = Some ex1) as He2.
  { unfold s2, single_procedure_store. cbn [dicts]. by apply lookup_app_l_Some. }
  set (r := nm2 +:+ "(" +:+ v tp2 +:+ ")") in *.
  set (s3 := Heap.set_builders
               (<[length (builders s) :=
                    {| functions := [(nm2, procedure_of ["v1"] stmts2
                                             (S (length (scopes s))))];
                       open_scopes :=
                         [(nm, procedure_of ["v1"] (stmts r)
                                 (length (scopes s)))] |}]>
                  (builders s2)) s2).
  assert (call_func registry (S (S n)) (func d) (passed c) tp
            (length (dicts s)) entry = Ok tt s3) as Hrun.
  { cbn [call_func]. rewrite Hbody. cbn [run_body]. rewrite Hreg.
    unfold bind at 1. rewrite call_wrapper_logic.
    cbn [call_func] in Hleaf. rewrite Hleaf.
    rewrite (run_body_emits _ _ _ Return _ ex1
               [(nm2, procedure_of ["v1"] stmts2 (S (length (scopes s))))]
               nm ["v1"] MISSING [] (length (scopes s)) []); try done. }
  exists (Heap.set_builders
            (<[fn_gen ex :=
                 {| functions :=
                      functions fm
                      ++ FB.record nm (procedure_of ["v1"] (stmts r)
                                         (length (scopes s)))
                           [(nm2, procedure_of ["v1"] stmts2
                                    (S (length (scopes s))))];
                    open_scopes := open_scopes fm |}]>
               (<[length (builders s) :=
                    {| functions :=
                         FB.record nm (procedure_of ["v1"] (stmts r)
                                         (length (scopes s)))
                           [(nm2, procedure_of ["v1"] stmts2
                                    (S (length (scopes s))))];
                       open_scopes := [] |}]>
                  (builders s3))) s3).
  assert (FB.record nm (procedure_of ["v1"] (stmts r) (length (scopes s)))
            [(nm2, procedure_of ["v1"] stmts2 (S (length (scopes s))))]
          = gained_procedures nm2
              (procedure_of ["v1"] stmts2 (S (length (scopes s))))
              nm (procedure_of ["v1"] (stmts r) (length (scopes s)))) as Hrec.
  { unfold gained_procedures. cbn [FB.record].
    destruct (String.eqb nm2 nm) eqn:E; [|done].
    by apply String.eqb_eq in E as ->. }
  assert (builders s2 !! fn_gen ex = Some fm) as Hmain2.
  { unfold s2, single_procedure_store. cbn [builders fn_gen ex1].
    unfold loc in *. rewrite list_lookup_insert_ne; [|lia].
    apply lookup_app_l_Some. unfold entry, entry_store. cbn [builders].
    by apply lookup_app_l_Some. }
  split; [|split; [|split]].
  - apply (default_miss_finish _ _ _ _ _ _ _ G fm nm s3); try done.
    + by apply reserved_name_default.
    + unfold s3. cbn [builders Heap.set_builders].
      unfold loc in *. rewrite list_lookup_insert_ne; [done|lia].
    + lia.
    + unfold s3. cbn [builders Heap.set_builders].
      apply list_lookup_insert_eq. by eapply lookup_lt_Some.
    + rewrite Hrec. unfold gained_procedures.
      destruct (String.eqb nm2 nm); [by apply collision_single|].
      by apply collision_pair.
  - cbn [builders Heap.set_builders]. rewrite Hrec.
    apply list_lookup_insert_eq. rewrite length_insert.
    unfold s3. cbn [builders Heap.set_builders]. rewrite length_insert.
    by eapply lookup_lt_Some.
  - cbn [guards Heap.set_builders]. unfold s3. cbn [guards Heap.set_builders].
    unfold s2, single_procedure_store. cbn [guards recursion_guard ex1].
    apply list_lookup_insert_eq.
    eapply lookup_lt_Some. by apply (entry_store_guards d tp ex nm c s G).
  - cbn [trace Heap.set_builders]. unfold s3. cbn [trace Heap.set_builders].
    unfold s2, single_procedure_store. cbn [trace].
    unfold entry, entry_store. cbn [trace].
    unfold invoked. rewrite !fmap_app. simpl. by rewrite <-app_assoc.
Qed.




Lemma reference_to_reserved_type_witness :
  _wrapper_logic (call_func [wrapper_logic Samples.d_linked] 1)
    Samples.d_linked (Samples.tp_linked "v1") 0 None Demo.root
  = Ok "_load_Node_linked_Linked(v1)"
      (single_procedure_store Samples.d_linked (Samples.tp_linked "v1")
         Demo.root_extras None ∅ FB.empty "_load_Node_linked_Linked"
         ["return cls(_load_Node_linked_Linked(v1['next']))"] Demo.root).
Proof.
  apply (reference_to_reserved_type [wrapper_logic Samples.d_linked] 0
           Samples.d_linked (Samples.tp_linked "v1") 0 None Demo.root
           Demo.root_extras ∅ FB.empty 0 (wrapper_logic Samples.d_linked) None
           (Samples.tp_linked "v1['next']")
           (λ r, ["return cls(" +:+ r +:+ ")"]) "_load_Node_linked_Linked");
    try reflexivity.
  apply not_elem_of_nil.
Defined.



(** The record and its field have different cache keys and the same
    default name: the guard maps both keys to it, and the caller's
    builder ends with one procedure, the record's, which calls itself. *)
Example same_name_one_procedure :
  Samples.item_compiled
  = Ok "_load_Node_rec_Item(v1)" (Demo.store_of Samples.item_compiled)
  ∧ guard_at 0 (Demo.store_of Samples.item_compiled) !! KOrigin 21%positive
    = Some "_load_Node_rec_Item"
  ∧ guard_at 0 (Demo.store_of Samples.item_compiled) !! KOrigin 22%positive
    = Some "_load_Node_rec_Item"
  ∧ invoked (trace (Demo.store_of Samples.item_compiled))
    = [KOrigin 21%positive; KOrigin 22%positive]
  ∧ (λ fb, (λ x, (x.1, proc_body x.2)) <$> functions fb)
      <$> builders (Demo.store_of Samples.item_compiled) !! 0
    = Some [("_load_Node_rec_Item",
             ["return cls(_load_Node_rec_Item(v1['part']))"])].
Proof.
  split; [vm_compute; reflexivity|]. split; [vm_compute; reflexivity|].
  split; [vm_compute; reflexivity|]. split; vm_compute; reflexivity.
Qed.
